(** * json_writer: a streaming JSON encoder

    Shallow embedding of [src/json_writer.h] and proofs of the properties its
    specification states about it.

    Modelling conventions
    - a [char] / [unsigned char] is a [byte]; its numeric value is [byte_val];
    - memory read through a [const char*] is a [list byte] and a pointer is
      an offset into it, so the range [[first, last)] of the source is
      [range m first last];
    - the [std::ostream&] the writer is bound to is the list of bytes written
      to it so far, in order; the stream is assumed to be in its default
      formatting state (decimal, fill character space, width 0);
    - [int] is [Z]: signed overflow is undefined in C++, so the model covers
      the executions in which [level_] and [level_ * indent_] stay in range;
    - the template [value<T>] is [value_integral], on a value tagged with
      what the stream does for its type: a number, a character or a
      boolean;
    - every member function of [json_writer] is a state transformer
      [json_writer -> json_writer], sequenced with [;;]. *)

From Stdlib Require Import List ZArith Lia Bool Arith.
From Stdlib Require Import Strings.Byte Numbers.DecimalPos.
Import ListNotations.

Local Open Scope Z_scope.
Local Open Scope list_scope.

(* ================================================================== *)
(** * Bytes, memory and the output stream *)

Definition byte_val (c : byte) : Z := Z.of_N (Byte.to_N c).

Definition mem := list byte.
Definition ptr := nat.
Bind Scope nat_scope with ptr.

(** [*p] *)
Definition deref (m : mem) (p : ptr) : byte := nth p m x00.

(** The bytes of the range [[first, last)]. *)
Definition range (m : mem) (first last : ptr) : list byte :=
  firstn (last - first)%nat (skipn first m).

(** A range the caller may pass: [first <= last], both inside the buffer. *)
Definition valid_range (m : mem) (first last : ptr) : Prop :=
  (first <= last)%nat /\ (last <= length m)%nat.

Definition ostream := list byte.

(** [sout << c] for a character. *)
Definition os_put (c : byte) (o : ostream) : ostream := o ++ [c].

(** [sout.write(p, n)]. *)
Definition os_write (m : mem) (p : ptr) (n : nat) (o : ostream) : ostream :=
  o ++ firstn n (skipn p m).

(** [sout << "literal"]; the argument is the literal without its
    terminator. *)
Definition os_puts (s : list byte) (o : ostream) : ostream := o ++ s.

(** [sout << std::setw(width) << ""]: the empty string padded to [width]
    with the fill character; a width that is not positive pads nothing. *)
Definition os_setw_empty (width : Z) (o : ostream) : ostream :=
  o ++ repeat " "%byte (Z.to_nat width).

Fixpoint uint_bytes (d : Decimal.uint) : list byte :=
  match d with
  | Decimal.Nil => []
  | Decimal.D0 d => "0"%byte :: uint_bytes d
  | Decimal.D1 d => "1"%byte :: uint_bytes d
  | Decimal.D2 d => "2"%byte :: uint_bytes d
  | Decimal.D3 d => "3"%byte :: uint_bytes d
  | Decimal.D4 d => "4"%byte :: uint_bytes d
  | Decimal.D5 d => "5"%byte :: uint_bytes d
  | Decimal.D6 d => "6"%byte :: uint_bytes d
  | Decimal.D7 d => "7"%byte :: uint_bytes d
  | Decimal.D8 d => "8"%byte :: uint_bytes d
  | Decimal.D9 d => "9"%byte :: uint_bytes d
  end.

(** Modelled from the spec: the stream's insertion operator for integers
    belongs to the standard library, not to this repository.  The
    specification describes it as a direct decimal conversion, no leading
    zeros, sign only when negative. *)
Definition decimal (n : Z) : list byte :=
  match Z.to_int n with
  | Decimal.Pos d => uint_bytes d
  | Decimal.Neg d => "-"%byte :: uint_bytes d
  end.

(** The integral types [T] that [value<T>] accepts, by what the stream's
    insertion operator does with a value of the type:
    - [IntNum]: [short], [int], [long], [long long] and their unsigned
      versions, inserted as a number;
    - [IntChar]: [char], [signed char] and [unsigned char] (so [int8_t] and
      [uint8_t] too), inserted as the character itself;
    - [IntBool]: [bool], inserted as [1] or [0] (the stream is not in
      [boolalpha] state). *)
Inductive integral :=
| IntNum (n : Z)
| IntChar (c : byte)
| IntBool (b : bool).

(** The text of [sout << n] for a value [n] of an integral type.  The
    insertion operators belong to the standard library; the decimal
    conversion is [decimal] above. *)
Definition integral_text (x : integral) : list byte :=
  match x with
  | IntNum n => decimal n
  | IntChar c => [c]
  | IntBool b => if b then ["1"%byte] else ["0"%byte]
  end.

(** [sout << n] for a value [n] of an integral type. *)
Definition os_put_integral (x : integral) (o : ostream) : ostream :=
  o ++ integral_text x.

(* ================================================================== *)
(** * The writer *)

Inductive SepStatus := none | first | next.

Definition SepStatus_eqb (a b : SepStatus) : bool :=
  match a, b with
  | none, none | first, first | next, next => true
  | _, _ => false
  end.

Record json_writer := mk_json_writer {
  sout_ : ostream;
  indent_ : Z;
  level_ : Z;
  sep_status_ : SepStatus
}.

Definition method := json_writer -> json_writer.

Definition seq (f g : method) : method := fun w => g (f w).
Notation "f ;; g" := (seq f g) (at level 61, left associativity).

Definition skip : method := fun w => w.

(** An operation on the stream [sout_]. *)
Definition sout (f : ostream -> ostream) : method := fun w =>
  mk_json_writer (f (sout_ w)) (indent_ w) (level_ w) (sep_status_ w).

(** [sep_status_ = s]. *)
Definition set_sep_status (s : SepStatus) : method := fun w =>
  mk_json_writer (sout_ w) (indent_ w) (level_ w) s.

(** [level_++] and [level_--]. *)
Definition level_incr : method := fun w =>
  mk_json_writer (sout_ w) (indent_ w) (level_ w + 1) (sep_status_ w).
Definition level_decr : method := fun w =>
  mk_json_writer (sout_ w) (indent_ w) (level_ w - 1) (sep_status_ w).

(** [if (cond) body] on the writer's state. *)
Definition when (cond : json_writer -> bool) (body : method) : method :=
  fun w => if cond w then body w else w.

Definition cObjStart : byte := "{"%byte.
Definition cObjEnd : byte := "}"%byte.
Definition cArrStart : byte := "["%byte.
Definition cArrEnd : byte := "]"%byte.
Definition sNameSep : mem := [":"%byte; " "%byte; x00].
Definition cValueSep : byte := ","%byte.

Definition json_writer_new (o : ostream) (indent : Z) : json_writer :=
  mk_json_writer o indent 0 none.

(** ** EOL and indent *)

Definition indent : method :=
  when (fun w => negb (indent_ w =? 0) && negb (SepStatus_eqb (sep_status_ w) none))
       (fun w => (sout (os_put x0a) ;; sout (os_setw_empty (level_ w * indent_ w))) w).

(** ** Value separator *)

Definition value_sep : method :=
  when (fun w => SepStatus_eqb (sep_status_ w) next) (sout (os_put cValueSep)) ;;
  indent.

(** ** Containers *)

Definition array_start : method :=
  value_sep ;; sout (os_put cArrStart) ;; set_sep_status first ;; level_incr.

Definition array_end : method :=
  level_decr ;; indent ;; sout (os_put cArrEnd) ;; set_sep_status next.

Definition object_start : method :=
  value_sep ;; sout (os_put cObjStart) ;; set_sep_status first ;; level_incr.

Definition object_end : method :=
  level_decr ;; indent ;; sout (os_put cObjEnd) ;; set_sep_status next.

(** ** Strings *)

Definition cQuote : byte := x22.
Definition cBackslash : byte := "\"%byte.
Definition sUnicodeEsc : mem := ["\"%byte; "u"%byte; "0"%byte; "0"%byte].

Definition sHex : list byte :=
  ["0"; "1"; "2"; "3"; "4"; "5"; "6"; "7"; "8"; "9"; "a"; "b"; "c"; "d"; "e"; "f"]%byte.

(** [sHex[n]]; the source only calls it with [0 <= n <= 15]. *)
Definition num_to_hex (n : Z) : byte := nth (Z.to_nat n) sHex x00.

(** The [switch (c)] of [write_string]. *)
Definition write_control_escape (c : byte) : method :=
  match c with
  | x08 (* '\b' *) => sout (os_put cBackslash) ;; sout (os_put "b"%byte)
  | x0c (* '\f' *) => sout (os_put cBackslash) ;; sout (os_put "f"%byte)
  | x0a (* '\n' *) => sout (os_put cBackslash) ;; sout (os_put "n"%byte)
  | x0d (* '\r' *) => sout (os_put cBackslash) ;; sout (os_put "r"%byte)
  | x09 (* '\t' *) => sout (os_put cBackslash) ;; sout (os_put "t"%byte)
  | _ =>
      sout (os_write sUnicodeEsc 0%nat 4%nat) ;;
      sout (os_put (num_to_hex (Z.land (Z.shiftr (byte_val c) 4) 15))) ;;
      sout (os_put (num_to_hex (Z.land (byte_val c) 15)))
  end.

(** One iteration of the [for] loop of [write_string], at position [ps] with
    the pending run starting at [start]; returns the new [start]. *)
Definition write_string_body (m : mem) (ps start : ptr) (w : json_writer)
  : ptr * json_writer :=
  let c := deref m ps in
  if Byte.eqb c cQuote || Byte.eqb c cBackslash then
    (S ps,
     (sout (os_write m start (ps - start)%nat) ;;
      sout (os_put cBackslash) ;;
      sout (os_put c)) w)
  else if (byte_val c <=? 31) || (byte_val c =? 127) then
    (S ps,
     (sout (os_write m start (ps - start)%nat) ;;
      write_control_escape c) w)
  else (start, w).

(** [for (ps = ...; ps != last; ps++)] with [n = last - ps] iterations left. *)
Fixpoint write_string_loop (m : mem) (n : nat) (ps start : ptr) (w : json_writer)
  : ptr * json_writer :=
  match n with
  | O => (start, w)
  | S n' =>
      let '(start', w') := write_string_body m ps start w in
      write_string_loop m n' (S ps) start' w'
  end.

(** [write_string(first, last)].  The loop runs [last - first] times, which
    is what the source does for a range with [first <= last]; any other
    range is outside the contract of the function. *)
Definition write_string (m : mem) (first last : ptr) : method := fun w =>
  let w := sout (os_put cQuote) w in
  let '(start, w) := write_string_loop m (last - first)%nat first first w in
  let w := if Nat.eqb start last then w
           else sout (os_write m start (last - start)%nat) w in
  sout (os_put cQuote) w.

(** ** Names *)

Definition name (m : mem) (first last : ptr) : method :=
  value_sep ;;
  write_string m first last ;;
  (fun w => sout (os_write sNameSep 0%nat (if indent_ w =? 0 then 1%nat else 2%nat)) w) ;;
  set_sep_status none.

(** ** Values *)

Definition value (m : mem) (first last : ptr) : method :=
  value_sep ;; write_string m first last ;; set_sep_status next.

Definition value_bool (b : bool) : method :=
  value_sep ;;
  sout (os_puts (if b then ["t"; "r"; "u"; "e"]%byte else ["f"; "a"; "l"; "s"; "e"]%byte)) ;;
  set_sep_status next.

Definition value_null : method :=
  value_sep ;; sout (os_puts ["n"; "u"; "l"; "l"]%byte) ;; set_sep_status next.

(** [value<T>(T n)], for every integral type [T]. *)
Definition value_integral (n : integral) : method :=
  value_sep ;; sout (os_put_integral n) ;; set_sep_status next.

(** ** Convenience overloads *)

(** [std::strlen] on the bytes at a pointer: the number of bytes before the
    first terminator; [None] when the buffer ends before one is found (the
    C++ call then reads out of bounds). *)
Fixpoint strlen_at (l : list byte) : option nat :=
  match l with
  | [] => None
  | c :: l' => if Byte.eqb c x00 then Some O else option_map S (strlen_at l')
  end.

Definition strlen (m : mem) (p : ptr) : option nat := strlen_at (skipn p m).

(** [name(const char* strz)] and [value(const char* strz)]. *)
Definition name_strz (m : mem) (strz : ptr) (w : json_writer) : option json_writer :=
  match strlen m strz with
  | Some n => Some (name m strz (strz + n)%nat w)
  | None => None
  end.

Definition value_strz (m : mem) (strz : ptr) (w : json_writer) : option json_writer :=
  match strlen m strz with
  | Some n => Some (value m strz (strz + n)%nat w)
  | None => None
  end.

(** What the templates [name<StringT>] and [value<StringT>] use of their
    argument: [data()], a pointer (a buffer and an offset into it), and
    [size()]. *)
Class StringT (T : Type) := {
  data : T -> mem * ptr;
  size : T -> nat
}.

Definition name_str {T} `{StringT T} (str : T) : method :=
  name (fst (data str)) (snd (data str)) (snd (data str) + size str)%nat.

Definition value_str {T} `{StringT T} (str : T) : method :=
  value (fst (data str)) (snd (data str)) (snd (data str) + size str)%nat.

(** A string that owns its characters, as [std::string]: [data()] points to
    the characters followed by a terminator. *)
Record std_string := mk_std_string { contents : list byte }.

#[export] Instance std_string_StringT : StringT std_string := {
  data s := (contents s ++ [x00], O);
  size s := length (contents s)
}.

(** A view into somebody else's buffer, as [std::string_view]. *)
Record string_view := mk_string_view {
  sv_buffer : mem;
  sv_begin : ptr;
  sv_length : nat
}.

#[export] Instance string_view_StringT : StringT string_view := {
  data s := (sv_buffer s, sv_begin s);
  size s := sv_length s
}.

(* ================================================================== *)
(** * Sequences of calls *)

Inductive call :=
| ArrayStart
| ArrayEnd
| ObjectStart
| ObjectEnd
| Name (m : mem) (first last : ptr)
| Value (m : mem) (first last : ptr)
| ValueBool (b : bool)
| ValueNull
| ValueIntegral (n : integral).

Definition exec (c : call) : method :=
  match c with
  | ArrayStart => array_start
  | ArrayEnd => array_end
  | ObjectStart => object_start
  | ObjectEnd => object_end
  | Name m f l => name m f l
  | Value m f l => value m f l
  | ValueBool b => value_bool b
  | ValueNull => value_null
  | ValueIntegral n => value_integral n
  end.

Fixpoint run (cs : list call) : method :=
  match cs with
  | [] => skip
  | c :: cs' => exec c ;; run cs'
  end.

(** The bytes [indent] and [value_sep] write in a given state. *)
Definition indent_bytes (w : json_writer) : list byte :=
  if negb (indent_ w =? 0) && negb (SepStatus_eqb (sep_status_ w) none)
  then x0a :: repeat " "%byte (Z.to_nat (level_ w * indent_ w))
  else [].

Definition value_sep_bytes (w : json_writer) : list byte :=
  (if SepStatus_eqb (sep_status_ w) next then [cValueSep] else []) ++
  indent_bytes w.

(** Appending [bs] to the stream, whatever stream operations do it. *)
Definition emit (bs : list byte) : method := sout (fun o => o ++ bs).

(** The bytes a method appends to the stream. *)
Definition emitted (f : method) (w : json_writer) : list byte :=
  skipn (length (sout_ w)) (sout_ (f w)).

Definition is_container_call (c : call) : bool :=
  match c with
  | ArrayStart | ArrayEnd | ObjectStart | ObjectEnd => true
  | _ => false
  end.

Inductive container := Arr | Obj.

(** Every end call closes the innermost open container, of its own kind,
    and nothing is left open. *)
Fixpoint balanced_from (open : list container) (cs : list call) : bool :=
  match cs with
  | [] => match open with [] => true | _ => false end
  | ArrayStart :: cs' => balanced_from (Arr :: open) cs'
  | ObjectStart :: cs' => balanced_from (Obj :: open) cs'
  | ArrayEnd :: cs' =>
      match open with Arr :: open' => balanced_from open' cs' | _ => false end
  | ObjectEnd :: cs' =>
      match open with Obj :: open' => balanced_from open' cs' | _ => false end
  | _ :: cs' => balanced_from open cs'
  end.

Definition balanced (cs : list call) : bool := balanced_from [] cs.

(** The separator status a call leaves behind. *)
Definition status_after (c : call) : SepStatus :=
  match c with
  | ArrayStart | ObjectStart => first
  | Name _ _ _ => none
  | _ => next
  end.

(* ================================================================== *)
(** * Reference definitions

    The definitions below are not translations of the source: they state,
    independently of the loop of [write_string] and of the separator state
    machine, what the specification says the output is. *)

Definition byte_of_Z (z : Z) : byte :=
  match Byte.of_N (Z.to_N z) with
  | Some b => b
  | None => x00
  end.

(** The hexadecimal digit of a value in [0..15], lower case. *)
Definition hex_digit (d : Z) : byte :=
  byte_of_Z (if d <? 10 then 48 + d else 97 + (d - 10)).

(** The escape of one byte, by the four classes of the specification. *)
Definition escape_spec (c : byte) : list byte :=
  let v := byte_val c in
  if (v =? 34) || (v =? 92) then ["\"%byte; c]
  else if v =? 8 then ["\"; "b"]%byte
  else if v =? 12 then ["\"; "f"]%byte
  else if v =? 10 then ["\"; "n"]%byte
  else if v =? 13 then ["\"; "r"]%byte
  else if v =? 9 then ["\"; "t"]%byte
  else if (v <=? 31) || (v =? 127) then
    ["\"; "u"; "0"; "0"]%byte ++ [hex_digit (v / 16); hex_digit (v mod 16)]
  else [c].

(** Bytes that [write_string] leaves in the pending run. *)
Definition passes_through (c : byte) : bool :=
  let v := byte_val c in
  negb ((v =? 34) || (v =? 92) || (v <=? 31) || (v =? 127)).

(** The quoted literal of a byte sequence. *)
Definition quoted (s : list byte) : list byte :=
  x22 :: flat_map escape_spec s ++ [x22].

(** The separator-and-indent prefix of section 4.3 of the specification. *)
Definition prefix_spec (indent_width level : Z) (status : SepStatus) : list byte :=
  (match status with next => [","%byte] | _ => [] end) ++
  (if (0 <? indent_width) && negb (SepStatus_eqb status none)
   then x0a :: repeat " "%byte (Z.to_nat (level * indent_width))
   else []).

(** The bytes the writer itself produces around names and values when it
    does not pretty-print: separators and delimiters. *)
Definition structural (b : byte) : bool :=
  existsb (Byte.eqb b) [","; "["; "]"; "{"; "}"]%byte.

(** ** Documents *)

#[local] Unset Elimination Schemes.
Inductive json :=
| JString (s : list byte)
| JInt (n : integral)
| JBool (b : bool)
| JNull
| JArray (vs : list json)
| JObject (ms : list (list byte * json)).
#[local] Set Elimination Schemes.

(** The calls a caller makes to write a document. *)
Fixpoint calls (v : json) : list call :=
  match v with
  | JString s => [Value s O (length s)]
  | JInt n => [ValueIntegral n]
  | JBool b => [ValueBool b]
  | JNull => [ValueNull]
  | JArray vs => ArrayStart :: flat_map calls vs ++ [ArrayEnd]
  | JObject ms =>
      ObjectStart ::
      flat_map (fun kv => Name (fst kv) O (length (fst kv)) :: calls (snd kv)) ms ++
      [ObjectEnd]
  end.

(** [xs] with [sep] between every two neighbours, and nowhere else. *)
Fixpoint join (sep : list byte) (xs : list (list byte)) : list byte :=
  match xs with
  | [] => []
  | x :: xs' =>
      match xs' with
      | [] => x
      | _ :: _ => x ++ sep ++ join sep xs'
      end
  end.

(** A line break followed by the indentation of depth [d]. *)
Definition newline_indent (N : Z) (d : nat) : list byte :=
  x0a :: repeat " "%byte (d * Z.to_nat N).

(** The pretty-printed layout of a document whose first token is at depth
    [d], for an indent width [N > 0]: every element of a container on a line
    of its own, one level deeper than the container; one comma between two
    siblings; the closing delimiter on a line of its own at the depth of the
    container. *)
Fixpoint render (N : Z) (d : nat) (v : json) : list byte :=
  match v with
  | JString s => quoted s
  | JInt n => integral_text n
  | JBool b => if b then ["t"; "r"; "u"; "e"]%byte else ["f"; "a"; "l"; "s"; "e"]%byte
  | JNull => ["n"; "u"; "l"; "l"]%byte
  | JArray vs =>
      "["%byte ::
      join [","%byte]
        (map (fun v => newline_indent N (S d) ++ render N (S d) v) vs) ++
      newline_indent N d ++ ["]"%byte]
  | JObject ms =>
      "{"%byte ::
      join [","%byte]
        (map (fun kv => newline_indent N (S d) ++ quoted (fst kv) ++
                        [":"; " "]%byte ++ render N (S d) (snd kv)) ms) ++
      newline_indent N d ++ ["}"%byte]
  end.


(** The lines of a text, split at its line breaks. *)
Fixpoint lines (s : list byte) : list (list byte) :=
  match s with
  | [] => [[]]
  | c :: s' =>
      if Byte.eqb c x0a then [] :: lines s'
      else match lines s' with
           | l :: ls => (c :: l) :: ls
           | [] => [[c]]
           end
  end.





(** The calls [cs], made at nesting depth [d] on a writer of indent width
    [N], write the separator-and-indent prefix and then [body], and leave
    the writer at the same depth with status [next]. *)
Definition writes (N : Z) (d : nat) (cs : list call) (body : list byte) : Prop :=
  forall w : json_writer,
    indent_ w = N -> level_ w = Z.of_nat d ->
    run cs w =
    mk_json_writer (sout_ w ++ value_sep_bytes w ++ body) N (Z.of_nat d) next.

(** ** The layout of a sequence of calls, pretty-printed

    What the specification says of the output of any sequence of calls
    when the indent width is positive, by the calls alone: where the commas
    and the line breaks go is decided by the call before, the indentation
    by the number of containers open. *)

Definition is_end_call (c : call) : bool :=
  match c with
  | ArrayEnd | ObjectEnd => true
  | _ => false
  end.

(** A call that completes an element: a value, or the end of a
    container. *)
Definition completes_element (c : call) : bool :=
  match c with
  | ArrayStart | ObjectStart | Name _ _ _ => false
  | _ => true
  end.

(** The text of the call itself; a name comes with its colon and space. *)
Definition call_token (c : call) : list byte :=
  match c with
  | ArrayStart => ["["%byte]
  | ArrayEnd => ["]"%byte]
  | ObjectStart => ["{"%byte]
  | ObjectEnd => ["}"%byte]
  | Name m f l => quoted (range m f l) ++ [":"; " "]%byte
  | Value m f l => quoted (range m f l)
  | ValueBool b => if b then ["t"; "r"; "u"; "e"]%byte else ["f"; "a"; "l"; "s"; "e"]%byte
  | ValueNull => ["n"; "u"; "l"; "l"]%byte
  | ValueIntegral n => integral_text n
  end.

(** The number of open containers after a call made with [d] open. *)
Definition depth_after (d : nat) (c : call) : nat :=
  match c with
  | ArrayStart | ObjectStart => S d
  | ArrayEnd | ObjectEnd => pred d
  | _ => d
  end.

(** The nesting depth at which the token of a call is written: a closing
    delimiter belongs to the depth of its container. *)
Definition token_depth (d : nat) (c : call) : nat :=
  if is_end_call c then pred d else d.

(** A comma goes before a call exactly when the call begins an element (it
    is not an end call) and the call before completed one, its sibling. *)
Definition follows_sibling (prev : option call) (c : call) : bool :=
  negb (is_end_call c) &&
  match prev with
  | Some p => completes_element p
  | None => false
  end.

(** A call starts a new line unless it is the first call or the call
    before was a name. *)
Definition starts_line (prev : option call) : bool :=
  match prev with
  | None => false
  | Some (Name _ _ _) => false
  | Some _ => true
  end.

Fixpoint layout (N : Z) (d : nat) (prev : option call) (cs : list call) : list byte :=
  match cs with
  | [] => []
  | c :: cs' =>
      (if follows_sibling prev c then [","%byte] else []) ++
      (if starts_line prev then newline_indent N (token_depth d c) else []) ++
      call_token c ++
      layout N (depth_after d c) (Some c) cs'
  end.





(** ** A decoder of string literals

    The grammar of RFC 8259, section 7, read as a state machine over the
    bytes of a UTF-8 text: a literal is a quotation mark, characters, a
    quotation mark; a character is an unescaped byte (anything from 0x20 up
    except the quotation mark and the reverse solidus) or an escape: a
    reverse solidus and one of the eight short forms, or [u] and four
    hexadecimal digits of either case, two such escapes for a surrogate
    pair.  Escaped code points are delivered in UTF-8; unescaped bytes,
    those from 0x80 up included, are copied as they are (the decoder does
    not check that they form well-formed UTF-8).  An unescaped control
    byte, an unknown escape, a lone surrogate and a missing closing
    quotation mark are errors. *)

Module Decoder.

Inductive state :=
| Start
| Body
| Escape
| Hex (high : option Z) (k : nat) (acc : Z)
| LowBackslash (high : Z)
| LowU (high : Z)
| Done.

Definition hex_value (c : byte) : option Z :=
  let v := byte_val c in
  if (48 <=? v) && (v <=? 57) then Some (v - 48)
  else if (65 <=? v) && (v <=? 70) then Some (v - 55)
  else if (97 <=? v) && (v <=? 102) then Some (v - 87)
  else None.

Definition simple_escape (c : byte) : option byte :=
  match c with
  | x22 => Some x22
  | "\"%byte => Some "\"%byte
  | "/"%byte => Some "/"%byte
  | "b"%byte => Some x08
  | "f"%byte => Some x0c
  | "n"%byte => Some x0a
  | "r"%byte => Some x0d
  | "t"%byte => Some x09
  | _ => None
  end.

Definition utf8 (cp : Z) : list byte :=
  if cp <? 128 then [byte_of_Z cp]
  else if cp <? 2048 then
    [byte_of_Z (192 + cp / 64); byte_of_Z (128 + cp mod 64)]
  else if cp <? 65536 then
    [byte_of_Z (224 + cp / 4096); byte_of_Z (128 + (cp / 64) mod 64);
     byte_of_Z (128 + cp mod 64)]
  else
    [byte_of_Z (240 + cp / 262144); byte_of_Z (128 + (cp / 4096) mod 64);
     byte_of_Z (128 + (cp / 64) mod 64); byte_of_Z (128 + cp mod 64)].

Definition is_high_surrogate (cp : Z) : bool := (55296 <=? cp) && (cp <=? 56319).
Definition is_low_surrogate (cp : Z) : bool := (56320 <=? cp) && (cp <=? 57343).

Definition prepend (bs : list byte) (r : option (list byte)) : option (list byte) :=
  match r with
  | Some l => Some (bs ++ l)
  | None => None
  end.

Fixpoint decode (st : state) (s : list byte) : option (list byte) :=
  match s with
  | [] => match st with Done => Some [] | _ => None end
  | c :: s' =>
      match st with
      | Start => if Byte.eqb c x22 then decode Body s' else None
      | Body =>
          if Byte.eqb c x22 then decode Done s'
          else if Byte.eqb c "\"%byte then decode Escape s'
          else if byte_val c <? 32 then None
          else prepend [c] (decode Body s')
      | Escape =>
          if Byte.eqb c "u"%byte then decode (Hex None 4 0) s'
          else match simple_escape c with
               | Some b => prepend [b] (decode Body s')
               | None => None
               end
      | Hex high k acc =>
          match hex_value c with
          | None => None
          | Some h =>
              let cp := acc * 16 + h in
              match k with
              | S (S k') => decode (Hex high (S k') cp) s'
              | _ =>
                  match high with
                  | None =>
                      if is_high_surrogate cp then decode (LowBackslash cp) s'
                      else if is_low_surrogate cp then None
                      else prepend (utf8 cp) (decode Body s')
                  | Some hi =>
                      if is_low_surrogate cp
                      then prepend (utf8 (65536 + (hi - 55296) * 1024 + (cp - 56320)))
                                   (decode Body s')
                      else None
                  end
              end
          end
      | LowBackslash hi => if Byte.eqb c "\"%byte then decode (LowU hi) s' else None
      | LowU hi => if Byte.eqb c "u"%byte then decode (Hex (Some hi) 4 0) s' else None
      | Done => None
      end
  end.

(** Decoding of a complete literal. *)
Definition decode_string (s : list byte) : option (list byte) := decode Start s.

End Decoder.


(* ================================================================== *)
(** * Sample inputs and scenarios *)

Notation "'do' x <- r ; k" :=
  (match r with Some x => k | None => None end)
  (at level 10, x name, r at level 100, k at level 200).

(** The bytes [a], TAB, [b], the quote, [c], 0x01 and 0xE9. *)
Definition sample_text : mem := ["a"; x09; "b"; x22; "c"; x01; xe9]%byte.

(** A buffer holding the terminated string [key] at offset 2. *)
Definition sample_strz : mem := ["x"; x00; "k"; "e"; "y"; x00; "z"]%byte.

(** Scenario 1 of the specification, indent width 0: [object_start();
    name(a); value(1); name(b); value_bool(true); object_end()], where the
    names are the string literals of one letter, passed as [const char*]. *)
Definition scenario_1 : option json_writer :=
  let w := object_start (json_writer_new [] 0) in
  do w <- name_strz ["a"%byte; x00] 0 w;
  let w := value_integral (IntNum 1) w in
  do w <- name_strz ["b"%byte; x00] 0 w;
  let w := value_bool true w in
  Some (object_end w).

(** An empty object written with indent width 2. *)
Definition empty_object_indent_2 : json_writer :=
  object_end (object_start (json_writer_new [] 2)).

(** A document with a nested object and an array, in the layout of
    scenario 4 of the specification. *)
Definition sample_document : json :=
  JObject
    [(["k"%byte], JObject [(["n"%byte], JInt (IntNum 1))]);
     (["a"%byte], JArray [JString ["x"%byte]; JNull; JArray []])].


(** A balanced sequence of container calls: an array holding an empty
    object and an empty array. *)
Definition sample_containers : list call :=
  [ArrayStart; ObjectStart; ObjectEnd; ArrayStart; ArrayEnd; ArrayEnd].

(* ================================================================== *)
(** * Vocabulary of the further properties *)

(** A byte that is neither a control byte nor the delete byte. *)
Definition not_control (c : byte) : bool :=
  (32 <=? byte_val c) && negb (byte_val c =? 127).

(** A printable character of ASCII. *)
Definition printable_ascii (c : byte) : bool :=
  (32 <=? byte_val c) && (byte_val c <=? 126).

(** A byte of ASCII. *)
Definition is_ascii (c : byte) : bool := byte_val c <? 128.

(** A byte with its high bit set. *)
Definition high_byte (c : byte) : bool := 128 <=? byte_val c.

(** The writer [w] on a stream that already holds [o] before what [w]
    holds. *)
Definition on_stream (o : ostream) (w : json_writer) : json_writer :=
  mk_json_writer (o ++ sout_ w) (indent_ w) (level_ w) (sep_status_ w).

(** What a call adds to the nesting level. *)
Definition level_change (c : call) : Z :=
  match c with
  | ArrayStart | ObjectStart => 1
  | ArrayEnd | ObjectEnd => -1
  | _ => 0
  end.

Fixpoint level_delta (cs : list call) : Z :=
  match cs with
  | [] => 0
  | c :: cs' => level_change c + level_delta cs'
  end.

(** The layout of a document without pretty-printing: no byte between the
    tokens but the commas between siblings and the colon after a name. *)
Fixpoint render_compact (v : json) : list byte :=
  match v with
  | JString s => quoted s
  | JInt n => integral_text n
  | JBool b => if b then ["t"; "r"; "u"; "e"]%byte else ["f"; "a"; "l"; "s"; "e"]%byte
  | JNull => ["n"; "u"; "l"; "l"]%byte
  | JArray vs => "["%byte :: join [","%byte] (map render_compact vs) ++ ["]"%byte]
  | JObject ms =>
      "{"%byte ::
      join [","%byte]
        (map (fun kv => quoted (fst kv) ++ [":"%byte] ++ render_compact (snd kv)) ms) ++
      ["}"%byte]
  end.

(** The calls [cs], made on a writer of indent width 0, write a comma when
    the status is [next] and then [body], and leave the writer at the same
    level with status [next]. *)
Definition writes_compact (cs : list call) (body : list byte) : Prop :=
  forall w : json_writer,
    indent_ w = 0 ->
    run cs w =
    mk_json_writer (sout_ w ++ value_sep_bytes w ++ body) 0 (level_ w) next.

(** A sequence with more end calls than start calls. *)
Definition sample_unbalanced : list call :=
  [ArrayStart; ValueNull; ArrayEnd; ObjectEnd; ValueBool true].

(** The separator status after a sequence of calls. *)
Definition final_status (s : SepStatus) (cs : list call) : SepStatus :=
  fold_left (fun _ c => status_after c) cs s.

(** Three documents written one after the other at the top level. *)
Definition sample_documents : list json :=
  [JInt (IntNum 1); JArray [JBool false]; JString ["x"%byte]].
(* ================================================================== *)
(** * Basic facts about the stream and the writer's state *)

Lemma json_writer_eq (w w' : json_writer) :
  sout_ w = sout_ w' -> indent_ w = indent_ w' -> level_ w = level_ w' ->
  sep_status_ w = sep_status_ w' -> w = w'.
Proof.
  destruct w, w'; cbn; intros; subst; reflexivity.
Qed.

Lemma emit_nil (w : json_writer) : emit [] w = w.
Proof.
  destruct w; unfold emit, sout; cbn. now rewrite app_nil_r.
Qed.

Lemma emit_emit (a b : list byte) (w : json_writer) :
  emit b (emit a w) = emit (a ++ b) w.
Proof.
  unfold emit, sout; cbn. now rewrite app_assoc.
Qed.

Lemma emitted_emit (bs : list byte) (w : json_writer) :
  emitted (emit bs) w = bs.
Proof.
  unfold emitted, emit, sout; cbn.
  rewrite skipn_app, skipn_all, Nat.sub_diag. reflexivity.
Qed.

(** ** Ranges *)

Lemma range_nil (m : mem) (p : ptr) : range m p p = [].
Proof.
  unfold range. now rewrite Nat.sub_diag.
Qed.

Lemma skipn_deref (m : mem) (p : ptr) :
  (p < length m)%nat -> skipn p m = deref m p :: skipn (S p) m.
Proof.
  unfold deref. revert p. induction m as [|c m IH]; intros p Hp; cbn in Hp.
  - lia.
  - destruct p as [|p]; [reflexivity|]. cbn. apply IH. lia.
Qed.

Lemma range_cons (m : mem) (p last : ptr) :
  (p < last)%nat -> (last <= length m)%nat ->
  range m p last = deref m p :: range m (S p) last.
Proof.
  intros Hlt Hle. unfold range.
  rewrite (skipn_deref m p) by lia.
  replace (last - p)%nat with (S (last - S p)) by lia. reflexivity.
Qed.

Lemma firstn_snoc (l : list byte) (k : nat) :
  (k < length l)%nat -> firstn (S k) l = firstn k l ++ [nth k l x00].
Proof.
  revert k. induction l as [|x l IH]; intros k Hk; cbn in Hk; [lia|].
  destruct k as [|k]; [reflexivity|].
  change (firstn (S (S k)) (x :: l)) with (x :: firstn (S k) l).
  rewrite IH by lia. reflexivity.
Qed.

Lemma nth_skipn_offset (m : list byte) (s k : nat) :
  nth k (skipn s m) x00 = nth (s + k) m x00.
Proof.
  revert m. induction s as [|s IH]; intros m; [reflexivity|].
  destruct m as [|x m]; cbn [skipn].
  - now destruct k.
  - apply IH.
Qed.

Lemma range_snoc (m : mem) (start p : ptr) :
  (start <= p)%nat -> (p < length m)%nat ->
  range m start (S p) = range m start p ++ [deref m p].
Proof.
  intros Hs Hp. unfold range, deref.
  replace (S p - start)%nat with (S (p - start)) by lia.
  rewrite firstn_snoc by (rewrite length_skipn; lia).
  rewrite nth_skipn_offset.
  replace (start + (p - start))%nat with p by lia. reflexivity.
Qed.

Lemma range_whole (s : list byte) : range s O (length s) = s.
Proof.
  unfold range. cbn [skipn]. rewrite Nat.sub_0_r. apply firstn_all.
Qed.

(* ================================================================== *)
(** * The escaping routine *)

(** One iteration of the loop, byte by byte: a byte that passes through
    stays in the pending run; any other byte flushes the run and writes its
    escape. *)
Lemma write_string_body_spec (m : mem) (ps start : ptr) (w : json_writer) :
  write_string_body m ps start w =
  if passes_through (deref m ps) then (start, w)
  else (S ps, emit (firstn (ps - start) (skipn start m) ++ escape_spec (deref m ps)) w).
Proof.
  unfold write_string_body, os_write.
  generalize (firstn (ps - start) (skipn start m)) as run.
  generalize (deref m ps) as c. intros c run.
  destruct c; cbn; try reflexivity;
    unfold seq, sout, emit, os_write, os_put; cbn;
    rewrite <- ?app_assoc; reflexivity.
Qed.

Lemma passes_through_escape (c : byte) :
  passes_through c = true -> escape_spec c = [c].
Proof.
  destruct c; cbn; intros H; try reflexivity; discriminate H.
Qed.

(** The loop, from any position: flushing the pending run after the loop
    gives the run pending before it followed by the escapes of the bytes
    scanned. *)
Lemma write_string_loop_spec (m : mem) (n : nat) :
  forall (ps start : ptr) (w : json_writer),
    (start <= ps)%nat -> (ps + n <= length m)%nat ->
    emit (range m (fst (write_string_loop m n ps start w)) (ps + n))
         (snd (write_string_loop m n ps start w)) =
    emit (range m start ps ++ flat_map escape_spec (range m ps (ps + n))) w.
Proof.
  induction n as [|n IH]; intros ps start w Hs Hl.
  - cbn [write_string_loop fst snd]. rewrite Nat.add_0_r, range_nil, app_nil_r.
    reflexivity.
  - cbn [write_string_loop]. rewrite write_string_body_spec.
    rewrite (range_cons m ps (ps + S n)) by lia.
    replace (ps + S n)%nat with (S ps + n)%nat by lia.
    cbn [flat_map].
    destruct (passes_through (deref m ps)) eqn:Hc.
    + rewrite IH by lia. rewrite range_snoc by lia.
      rewrite (passes_through_escape _ Hc), <- app_assoc. reflexivity.
    + rewrite IH by lia. rewrite range_nil, emit_emit. cbn [app].
      fold (range m start ps). rewrite <- app_assoc. reflexivity.
Qed.

(** [write_string] appends the quoted literal of its range and changes
    nothing else. *)
Lemma write_string_spec (m : mem) (first last : ptr) (w : json_writer) :
  valid_range m first last ->
  write_string m first last w = emit (quoted (range m first last)) w.
Proof.
  intros [Hfl Hlm]. unfold write_string.
  pose proof (write_string_loop_spec m (last - first) first first
                (sout (os_put cQuote) w) (Nat.le_refl _)) as H.
  replace (first + (last - first))%nat with last in H by lia.
  specialize (H Hlm). rewrite range_nil in H. cbn [app] in H.
  destruct (write_string_loop m (last - first) first first (sout (os_put cQuote) w))
    as [start w'] eqn:E.
  cbn [fst snd] in H.
  assert (Hflush : (if Nat.eqb start last then w'
                    else sout (os_write m start (last - start)) w')
                   = emit (range m start last) w').
  { destruct (Nat.eqb_spec start last) as [->|_].
    - now rewrite range_nil, emit_nil.
    - reflexivity. }
  rewrite Hflush, H.
  change (sout (os_put cQuote)) with (emit [cQuote]).
  rewrite !emit_emit. reflexivity.
Qed.

(** C2: per-byte classification of the escaping routine.  [write_string]
    appends an opening quote, the escape of every byte of its range in
    order, and a closing quote; and the escape of a byte is: a backslash and
    the byte itself for the quote and the backslash; the two-character
    escape for backspace, form feed, newline, carriage return and tab; the
    six characters backslash, u, 0, 0 and the two hexadecimal digits of the
    byte for every other byte up to 31 and for 127; the byte itself for
    every remaining byte, those above 127 included. *)
Theorem write_string_classifies_bytes (m : mem) (first last : ptr) (w : json_writer) :
  valid_range m first last ->
  sout_ (write_string m first last w) =
    sout_ w ++ [cQuote] ++ flat_map escape_spec (range m first last) ++ [cQuote] /\
  forall c : byte,
    ((c = cQuote \/ c = cBackslash) -> escape_spec c = [cBackslash; c]) /\
    (c = x08 -> escape_spec c = ["\"; "b"]%byte) /\
    (c = x0c -> escape_spec c = ["\"; "f"]%byte) /\
    (c = x0a -> escape_spec c = ["\"; "n"]%byte) /\
    (c = x0d -> escape_spec c = ["\"; "r"]%byte) /\
    (c = x09 -> escape_spec c = ["\"; "t"]%byte) /\
    ((byte_val c <= 31 \/ byte_val c = 127) ->
     c <> x08 -> c <> x0c -> c <> x0a -> c <> x0d -> c <> x09 ->
     escape_spec c =
       ["\"; "u"; "0"; "0"]%byte ++
       [hex_digit (byte_val c / 16); hex_digit (byte_val c mod 16)]) /\
    (31 < byte_val c -> byte_val c <> 127 -> c <> cQuote -> c <> cBackslash ->
     escape_spec c = [c]).
Proof.
  intros Hv. split.
  - rewrite write_string_spec by assumption. reflexivity.
  - intros c. unfold cQuote, cBackslash.
    destruct c; repeat split; intros; try reflexivity; exfalso;
      cbn in *; intuition (discriminate || congruence || lia).
Qed.

Lemma write_string_classifies_bytes_witness :
  valid_range sample_text 0 7 /\
  sout_ (write_string sample_text 0 7 (json_writer_new [] 0)) =
    sout_ (json_writer_new [] 0) ++ [cQuote] ++
    flat_map escape_spec (range sample_text 0 7) ++ [cQuote].
Proof.
  split.
  - split; cbn; lia.
  - apply (write_string_classifies_bytes sample_text 0 7 (json_writer_new [] 0)).
    split; cbn; lia.
Defined.

(** ** Decoding what [write_string] wrote *)

Lemma decode_escape_spec (c : byte) (rest : list byte) :
  Decoder.decode Decoder.Body (escape_spec c ++ rest) =
  Decoder.prepend [c] (Decoder.decode Decoder.Body rest).
Proof.
  destruct c; reflexivity.
Qed.

Lemma decode_body_escaped (s : list byte) :
  Decoder.decode Decoder.Body (flat_map escape_spec s ++ [x22]) = Some s.
Proof.
  induction s as [|c s IH]; [reflexivity|].
  cbn [flat_map]. rewrite <- app_assoc, decode_escape_spec, IH. reflexivity.
Qed.

Lemma decode_quoted (s : list byte) : Decoder.decode_string (quoted s) = Some s.
Proof.
  unfold Decoder.decode_string, quoted.
  change (Decoder.decode Decoder.Start (x22 :: flat_map escape_spec s ++ [x22]))
    with (Decoder.decode Decoder.Body (flat_map escape_spec s ++ [x22])).
  apply decode_body_escaped.
Qed.

(** The decoder on escapes that [write_string] does not produce, and on
    input it has to reject. *)
Example decode_upper_case_hex :
  Decoder.decode_string [x22; "\"; "u"; "0"; "0"; "E"; "9"; x22]%byte = Some [xc3; xa9].
Proof. reflexivity. Qed.

Example decode_surrogate_pair :
  Decoder.decode_string
    [x22; "\"; "u"; "d"; "8"; "3"; "d"; "\"; "u"; "d"; "e"; "0"; "0"; x22]%byte =
  Some [xf0; x9f; x98; x80].
Proof. reflexivity. Qed.

Example decode_rejects_raw_control_byte :
  Decoder.decode_string [x22; x09; x22] = None.
Proof. reflexivity. Qed.

Example decode_rejects_unterminated :
  Decoder.decode_string [x22; "a"; "\"; x22]%byte = None.
Proof. reflexivity. Qed.

(** C1: round trip of the escaping routine.  Whatever bytes the range
    holds (control bytes, 127, quotes and backslashes included), the literal
    that [write_string] appends to the stream is accepted by the decoder,
    which returns the bytes of the range. *)
Theorem write_string_round_trip (m : mem) (first last : ptr) (w : json_writer) :
  valid_range m first last ->
  Decoder.decode_string (emitted (write_string m first last) w) =
    Some (range m first last).
Proof.
  intros Hv. unfold emitted. rewrite write_string_spec by assumption.
  fold (emitted (emit (quoted (range m first last))) w).
  rewrite emitted_emit. apply decode_quoted.
Qed.

Lemma write_string_round_trip_witness :
  valid_range sample_text 0 7 /\
  Decoder.decode_string (emitted (write_string sample_text 0 7) (json_writer_new [] 0)) =
    Some (range sample_text 0 7).
Proof.
  split.
  - split; cbn; lia.
  - apply (write_string_round_trip sample_text 0 7 (json_writer_new [] 0)).
    split; cbn; lia.
Defined.

(* ================================================================== *)
(** * Separator and indentation *)

Lemma indent_spec (w : json_writer) : indent w = emit (indent_bytes w) w.
Proof.
  unfold indent, when, indent_bytes.
  destruct (negb (indent_ w =? 0) && negb (SepStatus_eqb (sep_status_ w) none)).
  - unfold seq, sout, emit, os_put, os_setw_empty; cbn.
    now rewrite <- app_assoc.
  - now rewrite emit_nil.
Qed.

Lemma value_sep_spec (w : json_writer) : value_sep w = emit (value_sep_bytes w) w.
Proof.
  unfold value_sep, seq, when, value_sep_bytes.
  destruct (SepStatus_eqb (sep_status_ w) next) eqn:E.
  - rewrite indent_spec. change (sout (os_put cValueSep)) with (emit [cValueSep]).
    rewrite emit_emit. reflexivity.
  - rewrite indent_spec. reflexivity.
Qed.

(** For an indent width that is not negative, what [value_sep] writes is
    the prefix of section 4.3. *)
Lemma value_sep_bytes_prefix_spec (w : json_writer) :
  0 <= indent_ w ->
  value_sep_bytes w = prefix_spec (indent_ w) (level_ w) (sep_status_ w).
Proof.
  intros Hi. unfold value_sep_bytes, indent_bytes, prefix_spec.
  replace (negb (indent_ w =? 0)) with (0 <? indent_ w)
    by (destruct (Z.eqb_spec (indent_ w) 0), (Z.ltb_spec 0 (indent_ w)); cbn; lia).
  destruct (sep_status_ w); reflexivity.
Qed.

(** C3: the separator-and-indent prefix.  For an indent width and a nesting
    level that are not negative, as the data model has them, [value_sep]
    appends a comma exactly when the separator status is [next], then a
    newline and [level_ * indent_] spaces exactly when the indent width is
    positive and the status is not [none], and nothing else; it leaves the
    rest of the state alone. *)
Theorem value_sep_prefix (w : json_writer) :
  0 <= indent_ w -> 0 <= level_ w ->
  exists spaces : nat,
    Z.of_nat spaces = level_ w * indent_ w /\
    sout_ (value_sep w) =
      sout_ w ++
      (match sep_status_ w with next => [","%byte] | _ => [] end) ++
      (if (0 <? indent_ w) && negb (SepStatus_eqb (sep_status_ w) none)
       then x0a :: repeat " "%byte spaces
       else []) /\
    indent_ (value_sep w) = indent_ w /\
    level_ (value_sep w) = level_ w /\
    sep_status_ (value_sep w) = sep_status_ w.
Proof.
  intros Hi Hl. exists (Z.to_nat (level_ w * indent_ w)).
  split; [rewrite Z2Nat.id; nia|].
  rewrite value_sep_spec, value_sep_bytes_prefix_spec by assumption.
  repeat split.
Qed.

Lemma value_sep_prefix_witness :
  0 <= indent_ (mk_json_writer [] 2 3 next) /\
  0 <= level_ (mk_json_writer [] 2 3 next) /\
  exists spaces : nat,
    Z.of_nat spaces = 3 * 2 /\
    sout_ (value_sep (mk_json_writer [] 2 3 next)) =
      [] ++ [","%byte] ++ x0a :: repeat " "%byte spaces /\
    indent_ (value_sep (mk_json_writer [] 2 3 next)) = 2 /\
    level_ (value_sep (mk_json_writer [] 2 3 next)) = 3 /\
    sep_status_ (value_sep (mk_json_writer [] 2 3 next)) = next.
Proof.
  split; [cbn; lia|]. split; [cbn; lia|].
  apply (value_sep_prefix (mk_json_writer [] 2 3 next)); cbn; lia.
Defined.

(** The source tests [indent_] against zero, not its sign: a negative
    indent width, which the data model excludes, still breaks the line. *)
Remark indent_negative_width :
  sout_ (indent (mk_json_writer [] (-1) 1 first)) = [x0a].
Proof. reflexivity. Qed.

(* ================================================================== *)
(** * Names and string values *)

Lemma name_spec (m : mem) (first last : ptr) (w : json_writer) :
  valid_range m first last ->
  name m first last w =
  set_sep_status none
    (emit (value_sep_bytes w ++ quoted (range m first last) ++
           firstn (if indent_ w =? 0 then 1%nat else 2%nat) sNameSep) w).
Proof.
  intros Hv. unfold name, seq.
  rewrite value_sep_spec, write_string_spec by assumption.
  unfold os_write. cbn [skipn].
  change (indent_ (emit (quoted (range m first last)) (emit (value_sep_bytes w) w)))
    with (indent_ w).
  fold (emit (firstn (if indent_ w =? 0 then 1%nat else 2%nat) sNameSep)).
  rewrite !emit_emit. reflexivity.
Qed.

Lemma value_spec (m : mem) (first last : ptr) (w : json_writer) :
  valid_range m first last ->
  value m first last w =
  set_sep_status next (emit (value_sep_bytes w ++ quoted (range m first last)) w).
Proof.
  intros Hv. unfold value, seq.
  rewrite value_sep_spec, write_string_spec by assumption.
  rewrite emit_emit. reflexivity.
Qed.

(** C4: write-name.  For a valid range and an indent width that is not
    negative, [name] appends the separator-and-indent prefix, the quoted
    escaped name and the name separator: colon and space when the indent
    width is positive, the colon alone when it is 0; the separator status
    becomes [none], and level and indent width stay. *)
Theorem name_writes_prefix_name_separator
  (m : mem) (first last : ptr) (w : json_writer) :
  valid_range m first last -> 0 <= indent_ w ->
  sout_ (name m first last w) =
    sout_ w ++ prefix_spec (indent_ w) (level_ w) (sep_status_ w) ++
    quoted (range m first last) ++
    (if 0 <? indent_ w then [":"; " "]%byte else [":"%byte]) /\
  sout_ (name m first last w) =
    sout_ (write_string m first last (value_sep w)) ++
    (if 0 <? indent_ w then [":"; " "]%byte else [":"%byte]) /\
  sep_status_ (name m first last w) = none /\
  level_ (name m first last w) = level_ w /\
  indent_ (name m first last w) = indent_ w.
Proof.
  intros Hv Hi.
  assert (Hsep : firstn (if indent_ w =? 0 then 1%nat else 2%nat) sNameSep =
                 if 0 <? indent_ w then [":"; " "]%byte else [":"%byte]).
  { destruct (Z.eqb_spec (indent_ w) 0), (Z.ltb_spec 0 (indent_ w));
      try lia; reflexivity. }
  rewrite name_spec by assumption.
  rewrite write_string_spec, value_sep_spec by assumption.
  rewrite Hsep, <- value_sep_bytes_prefix_spec by assumption.
  cbn [sout_ set_sep_status emit sout sep_status_ level_ indent_].
  rewrite <- !app_assoc. repeat split.
Qed.

Lemma name_writes_prefix_name_separator_witness :
  valid_range sample_text 0 7 /\
  0 <= indent_ (mk_json_writer [] 2 1 next) /\
  sout_ (name sample_text 0 7 (mk_json_writer [] 2 1 next)) =
    [] ++ prefix_spec 2 1 next ++ quoted (range sample_text 0 7) ++ [":"; " "]%byte.
Proof.
  split; [split; cbn; lia|]. split; [cbn; lia|].
  apply (name_writes_prefix_name_separator sample_text 0 7 (mk_json_writer [] 2 1 next)).
  - split; cbn; lia.
  - cbn; lia.
Defined.

(** C10: the empty range.  [value(p, p)] appends, after the
    separator-and-indent prefix, an opening quote immediately followed by a
    closing quote, and sets the separator status to [next]. *)
Theorem value_empty_range (m : mem) (p : ptr) (w : json_writer) :
  sout_ (value m p p w) = sout_ (value_sep w) ++ [cQuote; cQuote] /\
  sout_ (value_sep w) = sout_ w ++ value_sep_bytes w /\
  sep_status_ (value m p p w) = next /\
  level_ (value m p p w) = level_ w /\
  indent_ (value m p p w) = indent_ w.
Proof.
  unfold value, seq, write_string. rewrite Nat.sub_diag.
  cbn [write_string_loop]. rewrite Nat.eqb_refl, value_sep_spec.
  cbn. rewrite <- !app_assoc. repeat split.
Qed.

(* ================================================================== *)
(** * Scenarios *)

(** C7: scenario 1.  With indent width 0 the calls object_start, name a,
    value 1, name b, value_bool true, object_end write an opening brace,
    the quoted a, a colon, 1, a comma, the quoted b, a colon, true and a
    closing brace, and nothing else. *)
Theorem scenario_1_output :
  option_map sout_ scenario_1 =
  Some ["{"; x22; "a"; x22; ":"; "1"; ","; x22; "b"; x22; ":";
        "t"; "r"; "u"; "e"; "}"]%byte.
Proof. reflexivity. Qed.

(** Scenario 2: an array of two strings, indent width 0. *)
Example scenario_2_output :
  sout_ (run [ArrayStart; Value ["x"%byte] 0 1; Value ["y"%byte] 0 1; ArrayEnd]
             (json_writer_new [] 0)) =
  ["["; x22; "x"; x22; ","; x22; "y"; x22; "]"]%byte.
Proof. reflexivity. Qed.

(** Scenario 3: a string value with a tab and a quote. *)
Example scenario_3_output :
  sout_ (value ["a"; x09; "b"; x22; "c"]%byte 0 5 (json_writer_new [] 0)) =
  [x22; "a"; "\"; "t"; "b"; "\"; x22; "c"; x22]%byte.
Proof. reflexivity. Qed.

(** With indent width 2, object_start immediately followed by object_end
    writes a line break between the two braces. *)
Lemma empty_object_indent_2_output :
  sout_ empty_object_indent_2 = ["{"; x0a; "}"]%byte /\
  sout_ empty_object_indent_2 <> ["{"; "}"]%byte.
Proof.
  split; [reflexivity | discriminate].
Qed.

(** C8, amended: an empty object.  [object_start] immediately followed by
    [object_end] appends, after the separator-and-indent prefix, the two
    braces with nothing between them when the indent width is 0; for any
    other indent width the closing brace goes on a line of its own, indented
    to the level of the object.  No comma is written between the braces in
    either case. *)
Theorem empty_object_output (w : json_writer) :
  sout_ (object_end (object_start w)) =
    sout_ (value_sep w) ++ [cObjStart] ++
    (if indent_ w =? 0 then []
     else x0a :: repeat " "%byte (Z.to_nat (level_ w * indent_ w))) ++
    [cObjEnd] /\
  sep_status_ (object_end (object_start w)) = next /\
  level_ (object_end (object_start w)) = level_ w.
Proof.
  unfold object_end, object_start, seq.
  rewrite indent_spec, value_sep_spec. unfold indent_bytes.
  cbn. replace (level_ w + 1 - 1) with (level_ w) by lia.
  destruct (indent_ w =? 0); cbn; rewrite <- !app_assoc; repeat split.
Qed.

(* ================================================================== *)
(** * Convenience overloads *)

Lemma strlen_at_terminated (s rest : list byte) :
  existsb (Byte.eqb x00) s = false ->
  strlen_at (s ++ x00 :: rest) = Some (length s).
Proof.
  induction s as [|c s IH]; cbn [existsb app strlen_at length]; intros H.
  - reflexivity.
  - apply orb_false_elim in H as [Hc Hs].
    replace (Byte.eqb c x00) with false by (destruct c; cbn in Hc |- *; congruence).
    now rewrite IH.
Qed.

Lemma range_of_skipn (m : mem) (p : ptr) (s rest : list byte) :
  skipn p m = s ++ rest -> range m p (p + length s) = s.
Proof.
  intros H. unfold range. rewrite H.
  replace (p + length s - p)%nat with (length s) by lia.
  rewrite firstn_app, firstn_all, Nat.sub_diag. cbn. apply app_nil_r.
Qed.

(** Only the bytes of the range matter to [write_string], not where they
    are stored. *)
Lemma write_string_same_bytes (m m' : mem) (f l f' l' : ptr) (w : json_writer) :
  valid_range m f l -> valid_range m' f' l' ->
  range m f l = range m' f' l' ->
  write_string m f l w = write_string m' f' l' w.
Proof.
  intros Hv Hv' E. now rewrite !write_string_spec, E by assumption.
Qed.

Lemma std_string_range (str : std_string) :
  valid_range (contents str ++ [x00]) 0 (0 + length (contents str)) /\
  valid_range (contents str) 0 (length (contents str)) /\
  range (contents str ++ [x00]) 0 (0 + length (contents str)) =
  range (contents str) 0 (length (contents str)).
Proof.
  repeat split; try (rewrite ?length_app; cbn; lia).
  rewrite range_whole. apply (range_of_skipn _ 0 _ [x00]). reflexivity.
Qed.

(** C9: the convenience overloads.  For a terminated string stored at [p]
    (the bytes [s], none of them the terminator, followed by a terminator),
    [name(strz)] and [value(strz)] are [name(first, last)] and
    [value(first, last)] on the range that holds exactly [s]: same output,
    same state.  The overloads for a string class are the byte-range calls
    on [data()] and [data() + size()]; for a string that owns its
    characters that is the call on its characters. *)
Theorem overloads_are_byte_range_calls
  (m : mem) (p : ptr) (s rest : list byte) (w : json_writer) :
  skipn p m = s ++ x00 :: rest ->
  existsb (Byte.eqb x00) s = false ->
  range m p (p + length s) = s /\
  name_strz m p w = Some (name m p (p + length s) w) /\
  value_strz m p w = Some (value m p (p + length s) w) /\
  (forall (T : Type) (ST : StringT T) (str : T) (w' : json_writer),
      name_str str w' =
        name (fst (data str)) (snd (data str)) (snd (data str) + size str) w' /\
      value_str str w' =
        value (fst (data str)) (snd (data str)) (snd (data str) + size str) w') /\
  (forall (str : std_string) (w' : json_writer),
      name_str str w' = name (contents str) 0 (length (contents str)) w' /\
      value_str str w' = value (contents str) 0 (length (contents str)) w').
Proof.
  intros Hm Hs. split; [|split; [|split; [|split]]].
  - eapply range_of_skipn; eassumption.
  - unfold name_strz, strlen. now rewrite Hm, strlen_at_terminated.
  - unfold value_strz, strlen. now rewrite Hm, strlen_at_terminated.
  - intros; split; reflexivity.
  - intros str w'. destruct (std_string_range str) as (V1 & V2 & E).
    unfold name_str, value_str, name, value, seq; cbn [data size fst snd std_string_StringT].
    rewrite (write_string_same_bytes _ _ _ _ _ _ _ V1 V2 E). split; reflexivity.
Qed.

Lemma overloads_are_byte_range_calls_witness :
  skipn 2 sample_strz = ["k"; "e"; "y"]%byte ++ x00 :: ["z"%byte] /\
  existsb (Byte.eqb x00) ["k"; "e"; "y"]%byte = false /\
  name_strz sample_strz 2 (json_writer_new [] 0) =
    Some (name sample_strz 2 (2 + length ["k"; "e"; "y"]%byte) (json_writer_new [] 0)).
Proof.
  split; [reflexivity|]. split; [reflexivity|].
  apply (overloads_are_byte_range_calls sample_strz 2 ["k"; "e"; "y"]%byte ["z"%byte]
           (json_writer_new [] 0)); reflexivity.
Defined.

(* ================================================================== *)
(** * Container calls *)

Lemma array_start_spec (w : json_writer) :
  array_start w =
  level_incr (set_sep_status first (emit (value_sep_bytes w ++ [cArrStart]) w)).
Proof.
  unfold array_start, seq. rewrite value_sep_spec.
  change (sout (os_put cArrStart)) with (emit [cArrStart]).
  now rewrite emit_emit.
Qed.

Lemma object_start_spec (w : json_writer) :
  object_start w =
  level_incr (set_sep_status first (emit (value_sep_bytes w ++ [cObjStart]) w)).
Proof.
  unfold object_start, seq. rewrite value_sep_spec.
  change (sout (os_put cObjStart)) with (emit [cObjStart]).
  now rewrite emit_emit.
Qed.

Lemma array_end_spec (w : json_writer) :
  array_end w =
  set_sep_status next
    (emit (indent_bytes (level_decr w) ++ [cArrEnd]) (level_decr w)).
Proof.
  unfold array_end, seq. rewrite indent_spec.
  change (sout (os_put cArrEnd)) with (emit [cArrEnd]).
  now rewrite emit_emit.
Qed.

Lemma object_end_spec (w : json_writer) :
  object_end w =
  set_sep_status next
    (emit (indent_bytes (level_decr w) ++ [cObjEnd]) (level_decr w)).
Proof.
  unfold object_end, seq. rewrite indent_spec.
  change (sout (os_put cObjEnd)) with (emit [cObjEnd]).
  now rewrite emit_emit.
Qed.

(** ** Without pretty-printing *)

Lemma indent_bytes_indent_0 (w : json_writer) :
  indent_ w = 0 -> indent_bytes w = [].
Proof.
  intros Hi. unfold indent_bytes. rewrite Hi. reflexivity.
Qed.

Lemma value_sep_bytes_indent_0 (w : json_writer) :
  indent_ w = 0 ->
  value_sep_bytes w = if SepStatus_eqb (sep_status_ w) next then [cValueSep] else [].
Proof.
  intros Hi. unfold value_sep_bytes. rewrite indent_bytes_indent_0 by assumption.
  apply app_nil_r.
Qed.

Lemma exec_container_indent_0 (c : call) (w : json_writer) :
  is_container_call c = true -> indent_ w = 0 ->
  indent_ (exec c w) = 0 /\
  exists bs, sout_ (exec c w) = sout_ w ++ bs /\ forallb structural bs = true.
Proof.
  intros Hc Hi. destruct c; try discriminate Hc; cbn [exec].
  - rewrite array_start_spec. split; [exact Hi|].
    eexists; split; [reflexivity|].
    rewrite value_sep_bytes_indent_0 by assumption.
    destruct (SepStatus_eqb (sep_status_ w) next); reflexivity.
  - rewrite array_end_spec. split; [exact Hi|].
    eexists; split; [reflexivity|].
    rewrite indent_bytes_indent_0 by exact Hi. reflexivity.
  - rewrite object_start_spec. split; [exact Hi|].
    eexists; split; [reflexivity|].
    rewrite value_sep_bytes_indent_0 by assumption.
    destruct (SepStatus_eqb (sep_status_ w) next); reflexivity.
  - rewrite object_end_spec. split; [exact Hi|].
    eexists; split; [reflexivity|].
    rewrite indent_bytes_indent_0 by exact Hi. reflexivity.
Qed.

Lemma run_containers_indent_0 (cs : list call) :
  forall w : json_writer,
    forallb is_container_call cs = true -> indent_ w = 0 ->
    exists bs, sout_ (run cs w) = sout_ w ++ bs /\ forallb structural bs = true.
Proof.
  induction cs as [|c cs IH]; intros w Hcs Hi.
  - exists []. split; [|reflexivity]. unfold run, skip. now rewrite app_nil_r.
  - cbn [forallb] in Hcs. apply andb_prop in Hcs as [Hc Hcs].
    destruct (exec_container_indent_0 c w Hc Hi) as (Hi' & bs & E & F).
    destruct (IH (exec c w) Hcs Hi') as (bs' & E' & F').
    exists (bs ++ bs'). cbn [run]. unfold seq. rewrite E', E, <- app_assoc.
    split; [reflexivity|]. rewrite forallb_app, F, F'. reflexivity.
Qed.

Lemma structural_not_whitespace (bs : list byte) :
  forallb structural bs = true -> ~ In x0a bs /\ ~ In " "%byte bs.
Proof.
  intros F. rewrite forallb_forall in F.
  split; intros Hin; apply F in Hin; discriminate Hin.
Qed.

(** C5: indent width 0.  For every balanced sequence of array_start,
    array_end, object_start and object_end calls on a writer constructed
    with indent width 0 on an empty stream, the output holds no newline and
    no space. *)
Theorem containers_indent_0_no_whitespace (cs : list call) :
  forallb is_container_call cs = true ->
  balanced cs = true ->
  ~ In x0a (sout_ (run cs (json_writer_new [] 0))) /\
  ~ In " "%byte (sout_ (run cs (json_writer_new [] 0))).
Proof.
  intros Hcs _.
  destruct (run_containers_indent_0 cs (json_writer_new [] 0) Hcs eq_refl)
    as (bs & E & F).
  rewrite E. apply structural_not_whitespace. exact F.
Qed.

Lemma containers_indent_0_no_whitespace_witness :
  forallb is_container_call sample_containers = true /\
  balanced sample_containers = true /\
  ~ In x0a (sout_ (run sample_containers (json_writer_new [] 0))) /\
  ~ In " "%byte (sout_ (run sample_containers (json_writer_new [] 0))).
Proof.
  split; [reflexivity|]. split; [reflexivity|].
  apply (containers_indent_0_no_whitespace sample_containers); reflexivity.
Defined.

(* ================================================================== *)
(** * Documents and their pretty-printed layout *)

Lemma json_induction (P : json -> Prop) :
  (forall s, P (JString s)) ->
  (forall n, P (JInt n)) ->
  (forall b, P (JBool b)) ->
  P JNull ->
  (forall vs, Forall P vs -> P (JArray vs)) ->
  (forall ms, Forall (fun kv => P (snd kv)) ms -> P (JObject ms)) ->
  forall v, P v.
Proof.
  intros HS HI HB HN HA HO. fix IH 1. intros v.
  destruct v as [s|n|b| |vs|ms].
  - apply HS.
  - apply HI.
  - apply HB.
  - apply HN.
  - apply HA. induction vs as [|v vs IHvs]; constructor; [apply IH | exact IHvs].
  - apply HO. induction ms as [|[k v] ms IHms]; constructor; [apply IH | exact IHms].
Qed.

Lemma run_app (cs cs' : list call) (w : json_writer) :
  run (cs ++ cs') w = run cs' (run cs w).
Proof.
  revert w. induction cs as [|c cs IH]; intros w; [reflexivity|].
  cbn [app run]. unfold seq. apply IH.
Qed.

Lemma value_integral_spec (n : integral) (w : json_writer) :
  value_integral n w =
  set_sep_status next (emit (value_sep_bytes w ++ integral_text n) w).
Proof.
  unfold value_integral, seq. rewrite value_sep_spec.
  change (sout (os_put_integral n)) with (emit (integral_text n)).
  now rewrite emit_emit.
Qed.

Lemma value_bool_spec (b : bool) (w : json_writer) :
  value_bool b w =
  set_sep_status next
    (emit (value_sep_bytes w ++
           if b then ["t"; "r"; "u"; "e"]%byte else ["f"; "a"; "l"; "s"; "e"]%byte) w).
Proof.
  unfold value_bool, seq. rewrite value_sep_spec.
  unfold os_puts. fold (emit (if b then ["t"; "r"; "u"; "e"]%byte
                              else ["f"; "a"; "l"; "s"; "e"]%byte)).
  now rewrite emit_emit.
Qed.

Lemma value_null_spec (w : json_writer) :
  value_null w =
  set_sep_status next (emit (value_sep_bytes w ++ ["n"; "u"; "l"; "l"]%byte) w).
Proof.
  unfold value_null, seq. rewrite value_sep_spec.
  change (sout (os_puts ["n"; "u"; "l"; "l"]%byte)) with (emit ["n"; "u"; "l"; "l"]%byte).
  now rewrite emit_emit.
Qed.

Lemma valid_range_whole (s : list byte) : valid_range s 0 (length s).
Proof. split; lia. Qed.

Lemma join_cons (sep x : list byte) (xs : list (list byte)) :
  join sep (x :: xs) = x ++ concat (map (fun y => sep ++ y) xs).
Proof.
  revert x. induction xs as [|y xs IH]; intros x.
  - cbn. now rewrite app_nil_r.
  - change (join sep (x :: y :: xs)) with (x ++ sep ++ join sep (y :: xs)).
    rewrite IH. cbn [map concat]. now rewrite <- app_assoc.
Qed.

Section Pretty.

Variable N : Z.
Hypothesis N_positive : 0 < N.

Lemma indent_width_spaces (d : nat) :
  Z.to_nat (Z.of_nat d * N) = (d * Z.to_nat N)%nat.
Proof.
  rewrite Z2Nat.inj_mul by lia. now rewrite Nat2Z.id.
Qed.

Lemma indent_bytes_pretty (w : json_writer) (d : nat) :
  indent_ w = N -> level_ w = Z.of_nat d ->
  indent_bytes w =
  match sep_status_ w with
  | none => []
  | _ => newline_indent N d
  end.
Proof.
  intros Hi Hl. unfold indent_bytes, newline_indent.
  rewrite Hi, Hl, indent_width_spaces.
  replace (N =? 0) with false by (symmetry; apply Z.eqb_neq; lia).
  destruct (sep_status_ w); reflexivity.
Qed.

Lemma value_sep_bytes_pretty (w : json_writer) (d : nat) :
  indent_ w = N -> level_ w = Z.of_nat d ->
  value_sep_bytes w =
  match sep_status_ w with
  | none => []
  | first => newline_indent N d
  | next => ","%byte :: newline_indent N d
  end.
Proof.
  intros Hi Hl. unfold value_sep_bytes.
  rewrite (indent_bytes_pretty w d Hi Hl).
  destruct (sep_status_ w); reflexivity.
Qed.

(** ** The elements of a container *)

Section Elements.

Context {X : Type}.
Variable cs : X -> list call.
Variable body : X -> list byte.
Variable d : nat.

Lemma run_elements_next (xs : list X) :
  Forall (fun x => writes N d (cs x) (body x)) xs ->
  forall w : json_writer,
    indent_ w = N -> level_ w = Z.of_nat d -> sep_status_ w = next ->
    run (flat_map cs xs) w =
    mk_json_writer
      (sout_ w ++ concat (map (fun x => [","%byte] ++ newline_indent N d ++ body x) xs))
      N (Z.of_nat d) next.
Proof.
  induction 1 as [|x xs Hx _ IH]; intros w Hi Hl Hs.
  - cbn [flat_map map concat run]. unfold skip.
    apply json_writer_eq; cbn [sout_ indent_ level_ sep_status_];
      auto using app_nil_r. now rewrite app_nil_r.
  - cbn [flat_map map concat]. rewrite run_app, (Hx w Hi Hl).
    rewrite IH by reflexivity. cbn [sout_].
    rewrite (value_sep_bytes_pretty w d Hi Hl), Hs.
    f_equal. rewrite <- !app_assoc. reflexivity.
Qed.

Lemma run_elements_first (xs : list X) :
  Forall (fun x => writes N d (cs x) (body x)) xs ->
  forall w : json_writer,
    indent_ w = N -> level_ w = Z.of_nat d -> sep_status_ w = first ->
    run (flat_map cs xs) w =
    mk_json_writer
      (sout_ w ++ join [","%byte] (map (fun x => newline_indent N d ++ body x) xs))
      N (Z.of_nat d)
      (match xs with [] => first | _ :: _ => next end).
Proof.
  intros Hxs w Hi Hl Hs. destruct Hxs as [|x xs Hx Hxs].
  - cbn [flat_map map join run]. unfold skip.
    apply json_writer_eq; cbn [sout_ indent_ level_ sep_status_]; auto.
    now rewrite app_nil_r.
  - cbn [flat_map map]. rewrite run_app, (Hx w Hi Hl).
    rewrite (run_elements_next xs Hxs) by reflexivity. cbn [sout_].
    rewrite (value_sep_bytes_pretty w d Hi Hl), Hs, join_cons.
    f_equal. rewrite map_map, <- !app_assoc. reflexivity.
Qed.

End Elements.

(** ** Containers and members *)

Lemma writes_container
  (start_call end_call : call) (open close : byte)
  (elements : list call) (inside : list byte) (d : nat) :
  (forall w, exec start_call w =
             level_incr (set_sep_status first (emit (value_sep_bytes w ++ [open]) w))) ->
  (forall w, exec end_call w =
             set_sep_status next
               (emit (indent_bytes (level_decr w) ++ [close]) (level_decr w))) ->
  (forall w : json_writer,
      indent_ w = N -> level_ w = Z.of_nat (S d) -> sep_status_ w = first ->
      exists st,
        st <> none /\
        run elements w = mk_json_writer (sout_ w ++ inside) N (Z.of_nat (S d)) st) ->
  writes N d (start_call :: elements ++ [end_call])
         (open :: inside ++ newline_indent N d ++ [close]).
Proof.
  intros Hstart Hend Hel w Hi Hl.
  cbn [run]. unfold seq. rewrite run_app, Hstart.
  destruct (Hel (level_incr (set_sep_status first (emit (value_sep_bytes w ++ [open]) w))))
    as (st & Hst & E).
  - exact Hi.
  - cbn [level_ level_incr set_sep_status emit sout]. rewrite Hl. lia.
  - reflexivity.
  - rewrite E. cbn [run]. unfold seq, skip. rewrite Hend.
    rewrite (indent_bytes_pretty _ d).
    + unfold set_sep_status, emit, sout, level_decr, level_incr.
      cbn [sep_status_ sout_ indent_ level_].
      replace (Z.of_nat (S d) - 1) with (Z.of_nat d) by lia.
      f_equal. destruct st; [congruence| |];
        rewrite <- !app_assoc; cbn [app]; reflexivity.
    + reflexivity.
    + cbn [level_ level_decr]. lia.
Qed.

Lemma value_sep_bytes_none (w : json_writer) :
  sep_status_ w = none -> value_sep_bytes w = [].
Proof.
  intros Hs. unfold value_sep_bytes, indent_bytes. rewrite Hs. cbn.
  now rewrite andb_false_r.
Qed.

Lemma writes_member (k : list byte) (cs : list call) (body : list byte) (d : nat) :
  writes N d cs body ->
  writes N d (Name k 0 (length k) :: cs) (quoted k ++ [":"; " "]%byte ++ body).
Proof.
  intros Hcs w Hi Hl. cbn [run exec]. unfold seq.
  rewrite name_spec by apply valid_range_whole. rewrite range_whole.
  rewrite Hcs.
  - rewrite (value_sep_bytes_none (set_sep_status none _)) by reflexivity.
    cbn [sout_ set_sep_status emit sout indent_]. rewrite Hi.
    replace (N =? 0) with false by (symmetry; apply Z.eqb_neq; lia).
    f_equal. rewrite <- !app_assoc. reflexivity.
  - exact Hi.
  - exact Hl.
Qed.

(** Writing a document at depth [d] appends the separator-and-indent
    prefix and the layout of the document, and leaves the writer at the
    same depth with status [next]. *)
Lemma writes_calls (v : json) : forall d : nat, writes N d (calls v) (render N d v).
Proof.
  induction v as [s|n|b| |vs IH|ms IH] using json_induction; intros d.
  - intros w Hi Hl. cbn [calls run exec render]. unfold seq, skip.
    rewrite value_spec by apply valid_range_whole. rewrite range_whole.
    rewrite <- Hi, <- Hl. reflexivity.
  - intros w Hi Hl. cbn [calls run exec render]. unfold seq, skip.
    rewrite value_integral_spec, <- Hi, <- Hl. reflexivity.
  - intros w Hi Hl. cbn [calls run exec render]. unfold seq, skip.
    rewrite value_bool_spec, <- Hi, <- Hl. reflexivity.
  - intros w Hi Hl. cbn [calls run exec render]. unfold seq, skip.
    rewrite value_null_spec, <- Hi, <- Hl. reflexivity.
  - cbn [calls render].
    apply (writes_container ArrayStart ArrayEnd "["%byte "]"%byte).
    + exact array_start_spec.
    + exact array_end_spec.
    + intros w Hi Hl Hs.
      exists (match vs with [] => first | _ :: _ => next end).
      split; [destruct vs; discriminate|].
      apply (run_elements_first calls (fun v => render N (S d) v) (S d)); auto.
      revert IH. apply Forall_impl. intros v Hv. apply Hv.
  - cbn [calls render].
    apply (writes_container ObjectStart ObjectEnd "{"%byte "}"%byte).
    + exact object_start_spec.
    + exact object_end_spec.
    + intros w Hi Hl Hs.
      exists (match ms with [] => first | _ :: _ => next end).
      split; [destruct ms; discriminate|].
      apply (run_elements_first
               (fun kv => Name (fst kv) 0 (length (fst kv)) :: calls (snd kv))
               (fun kv => quoted (fst kv) ++ [":"; " "]%byte ++ render N (S d) (snd kv))
               (S d)); auto.
      revert IH. apply Forall_impl. intros kv Hv. apply writes_member, Hv.
Qed.

(** ** Lines and their indentation *)







(** ** Tokens hold no line break and do not start with a space *)








(** ** Any balanced sequence of calls *)








(** ** The lines of a layout *)





End Pretty.

(** ** The calls of a document are balanced *)

Lemma balanced_from_calls (v : json) :
  forall (open : list container) (rest : list call),
    balanced_from open (calls v ++ rest) = balanced_from open rest.
Proof.
  induction v as [s|n|b| |vs IH|ms IH] using json_induction; intros open rest;
    try reflexivity.
  - cbn [calls app balanced_from]. rewrite <- app_assoc.
    assert (H : forall open' rest',
               balanced_from open' (flat_map calls vs ++ rest') =
               balanced_from open' rest').
    { induction IH as [|v vs Hv _ IHvs]; intros open' rest'; [reflexivity|].
      cbn [flat_map]. now rewrite <- app_assoc, Hv, IHvs. }
    now rewrite H.
  - cbn [calls app balanced_from]. rewrite <- app_assoc.
    assert (H : forall open' rest',
               balanced_from open'
                 (flat_map (fun kv => Name (fst kv) 0 (length (fst kv)) :: calls (snd kv)) ms
                  ++ rest') =
               balanced_from open' rest').
    { induction IH as [|kv ms Hv _ IHms]; intros open' rest'; [reflexivity|].
      cbn [flat_map app balanced_from]. now rewrite <- app_assoc, Hv, IHms. }
    now rewrite H.
Qed.

Lemma balanced_calls (v : json) : balanced (calls v) = true.
Proof.
  unfold balanced. rewrite <- (app_nil_r (calls v)). now rewrite balanced_from_calls.
Qed.




(** Two empty arrays one after the other at the top level, indent
    width 2: a balanced sequence that is the calls of no single document. *)
Example two_top_level_arrays :
  sout_ (run [ArrayStart; ArrayEnd; ArrayStart; ArrayEnd] (json_writer_new [] 2)) =
    ["["; x0a; "]"; ","; x0a; "["; x0a; "]"]%byte /\
  layout 2 0 None [ArrayStart; ArrayEnd; ArrayStart; ArrayEnd] =
    ["["; x0a; "]"; ","; x0a; "["; x0a; "]"]%byte.
Proof. split; reflexivity. Qed.

(** For the calls of a document the layout is the one of the document:
    every element of a container on a line of its own, siblings joined by
    one comma, the closing delimiter on a line of its own. *)
Theorem document_layout (N : Z) (v : json) :
  0 < N ->
  sout_ (run (calls v) (json_writer_new [] N)) = render N 0 v.
Proof.
  intros HN.
  rewrite (writes_calls N HN v 0 (json_writer_new [] N) eq_refl eq_refl).
  cbn [sout_ json_writer_new]. now rewrite value_sep_bytes_none.
Qed.

Lemma document_layout_witness :
  0 < 2 /\
  sout_ (run (calls sample_document) (json_writer_new [] 2)) =
    render 2 0 sample_document.
Proof.
  split; [lia|]. apply (document_layout 2 sample_document). lia.
Defined.

(** The layout of the sample document, line by line. *)
Example sample_document_lines :
  lines (sout_ (run (calls sample_document) (json_writer_new [] 2))) =
  [ ["{"]%byte;
    [" "; " "; x22; "k"; x22; ":"; " "; "{"]%byte;
    [" "; " "; " "; " "; x22; "n"; x22; ":"; " "; "1"]%byte;
    [" "; " "; "}"; ","]%byte;
    [" "; " "; x22; "a"; x22; ":"; " "; "["]%byte;
    [" "; " "; " "; " "; x22; "x"; x22; ","]%byte;
    [" "; " "; " "; " "; "n"; "u"; "l"; "l"; ","]%byte;
    [" "; " "; " "; " "; "["]%byte;
    [" "; " "; " "; " "; "]"]%byte;
    [" "; " "; "]"]%byte;
    ["}"]%byte ].
Proof. reflexivity. Qed.

(* ================================================================== *)
(** * Further properties of the escaping routine *)

Lemma emitted_write_string (m : mem) (first last : ptr) (w : json_writer) :
  valid_range m first last ->
  emitted (write_string m first last) w = quoted (range m first last).
Proof.
  intros Hv. unfold emitted. rewrite write_string_spec by assumption.
  apply emitted_emit.
Qed.

Lemma forallb_quoted (p : byte -> bool) (s : list byte) :
  p x22 = true -> (forall c, In c s -> forallb p (escape_spec c) = true) ->
  forallb p (quoted s) = true.
Proof.
  intros Hq Hs. unfold quoted. cbn [forallb]. rewrite Hq, forallb_app.
  cbn [forallb andb]. rewrite Hq. cbn [andb]. rewrite andb_true_r.
  induction s as [|c s IH]; [reflexivity|].
  cbn [flat_map]. rewrite forallb_app, Hs by (left; reflexivity).
  apply IH. intros c' Hc'. apply Hs. now right.
Qed.

Lemma not_control_escape_spec (c : byte) : forallb not_control (escape_spec c) = true.
Proof. destruct c; reflexivity. Qed.

(** The literal that [write_string] writes never holds a control byte
    (0 to 31) or the delete byte (127), whatever the range holds. *)
Theorem write_string_writes_no_control_byte
  (m : mem) (first last : ptr) (w : json_writer) :
  valid_range m first last ->
  forallb not_control (emitted (write_string m first last) w) = true.
Proof.
  intros Hv. rewrite emitted_write_string by assumption.
  apply forallb_quoted; [reflexivity|]. intros c _. apply not_control_escape_spec.
Qed.

Lemma write_string_writes_no_control_byte_witness :
  valid_range sample_text 0 7 /\
  forallb not_control (emitted (write_string sample_text 0 7) (json_writer_new [] 0)) = true.
Proof.
  split.
  - split; cbn; lia.
  - apply (write_string_writes_no_control_byte sample_text 0 7 (json_writer_new [] 0)).
    split; cbn; lia.
Defined.

Lemma length_escape_spec (c : byte) :
  (1 <= length (escape_spec c) <= 6)%nat.
Proof. destruct c; cbn; lia. Qed.

Lemma length_flat_map_escape_spec (s : list byte) :
  (length s <= length (flat_map escape_spec s) <= 6 * length s)%nat.
Proof.
  induction s as [|c s IH]; [cbn; lia|].
  cbn [flat_map length]. rewrite length_app.
  pose proof (length_escape_spec c). lia.
Qed.

(** The literal of a range of [n] bytes is at least [n + 2] and at most
    [6 * n + 2] bytes long. *)
Theorem write_string_length_bounds
  (m : mem) (first last : ptr) (w : json_writer) :
  valid_range m first last ->
  ((last - first) + 2 <= length (emitted (write_string m first last) w)
   <= 6 * (last - first) + 2)%nat.
Proof.
  intros Hv. rewrite emitted_write_string by assumption.
  assert (Hlen : length (range m first last) = (last - first)%nat).
  { unfold range. destruct Hv as [Hfl Hlm].
    rewrite firstn_length_le; [reflexivity|]. rewrite length_skipn. lia. }
  unfold quoted. cbn [length]. rewrite length_app. cbn [length].
  pose proof (length_flat_map_escape_spec (range m first last)) as H.
  rewrite Hlen in H. lia.
Qed.

Lemma write_string_length_bounds_witness :
  valid_range sample_text 0 7 /\
  ((7 - 0) + 2 <= length (emitted (write_string sample_text 0 7) (json_writer_new [] 0))
   <= 6 * (7 - 0) + 2)%nat.
Proof.
  split.
  - split; cbn; lia.
  - apply (write_string_length_bounds sample_text 0 7 (json_writer_new [] 0)).
    split; cbn; lia.
Defined.

(** Escaping loses nothing: two ranges with the same literal hold the same
    bytes. *)
Theorem write_string_injective
  (m m' : mem) (first last first' last' : ptr) (w w' : json_writer) :
  valid_range m first last -> valid_range m' first' last' ->
  emitted (write_string m first last) w = emitted (write_string m' first' last') w' ->
  range m first last = range m' first' last'.
Proof.
  intros Hv Hv' E. rewrite !emitted_write_string in E by assumption.
  apply (f_equal Decoder.decode_string) in E. rewrite !decode_quoted in E.
  now injection E.
Qed.

Lemma write_string_injective_witness :
  valid_range sample_text 2 5 /\
  (emitted (write_string sample_text 2 5) (json_writer_new [] 0) =
   emitted (write_string sample_text 2 5) (json_writer_new [","%byte] 2)) /\
  range sample_text 2 5 = range sample_text 2 5.
Proof.
  split; [split; cbn; lia|]. split; [reflexivity|].
  apply (write_string_injective sample_text sample_text 2 5 2 5
           (json_writer_new [] 0) (json_writer_new [","%byte] 2)).
  - split; cbn; lia.
  - split; cbn; lia.
  - reflexivity.
Defined.

Lemma printable_escape_spec (c : byte) :
  is_ascii c = true -> forallb printable_ascii (escape_spec c) = true.
Proof. destruct c; cbn; intros H; try reflexivity; discriminate H. Qed.

(** A range of ASCII bytes is written with printable ASCII characters
    only. *)
Theorem write_string_ascii_printable
  (m : mem) (first last : ptr) (w : json_writer) :
  valid_range m first last ->
  forallb is_ascii (range m first last) = true ->
  forallb printable_ascii (emitted (write_string m first last) w) = true.
Proof.
  intros Hv Ha. rewrite emitted_write_string by assumption.
  apply forallb_quoted; [reflexivity|]. intros c Hc.
  apply printable_escape_spec. rewrite forallb_forall in Ha. now apply Ha.
Qed.

Lemma write_string_ascii_printable_witness :
  valid_range sample_text 0 6 /\
  forallb is_ascii (range sample_text 0 6) = true /\
  forallb printable_ascii (emitted (write_string sample_text 0 6) (json_writer_new [] 0)) = true.
Proof.
  split; [split; cbn; lia|]. split; [reflexivity|].
  apply (write_string_ascii_printable sample_text 0 6 (json_writer_new [] 0)).
  - split; cbn; lia.
  - reflexivity.
Defined.

Lemma high_bytes_escape_spec (c : byte) :
  filter high_byte (escape_spec c) = filter high_byte [c].
Proof. destruct c; reflexivity. Qed.

(** The bytes with the high bit set go through untouched and in order, and
    the escapes add none: the bytes of a UTF-8 sequence stay together as
    they were. *)
Theorem write_string_keeps_high_bytes
  (m : mem) (first last : ptr) (w : json_writer) :
  valid_range m first last ->
  filter high_byte (emitted (write_string m first last) w) =
  filter high_byte (range m first last).
Proof.
  intros Hv. rewrite emitted_write_string by assumption.
  unfold quoted. cbn [filter]. change (high_byte x22) with false. cbn iota.
  rewrite filter_app. cbn [filter]. change (high_byte x22) with false. cbn iota.
  rewrite app_nil_r.
  induction (range m first last) as [|c s IH]; [reflexivity|].
  cbn [flat_map]. rewrite filter_app, high_bytes_escape_spec, IH.
  symmetry. apply (filter_app high_byte [c] s).
Qed.

Lemma write_string_keeps_high_bytes_witness :
  valid_range sample_text 0 7 /\
  filter high_byte (emitted (write_string sample_text 0 7) (json_writer_new [] 0)) =
  filter high_byte (range sample_text 0 7).
Proof.
  split.
  - split; cbn; lia.
  - apply (write_string_keeps_high_bytes sample_text 0 7 (json_writer_new [] 0)).
    split; cbn; lia.
Defined.

(** The two digits that [write_string] computes for a byte, with
    [num_to_hex] on the high and on the low four bits, are hexadecimal
    digits, and their values give back the byte. *)
Theorem num_to_hex_digits_of_byte (c : byte) :
  exists hi lo : Z,
    Decoder.hex_value (num_to_hex (Z.land (Z.shiftr (byte_val c) 4) 15)) = Some hi /\
    Decoder.hex_value (num_to_hex (Z.land (byte_val c) 15)) = Some lo /\
    16 * hi + lo = byte_val c.
Proof.
  destruct c; do 2 eexists; repeat split.
Qed.

(* ================================================================== *)
(** * What a call does to the stream and to the state

    No member function reads the stream, and [write_string] reads nothing
    of the writer at all: the bytes a call writes are a function of the
    call and of the indent width, the level and the separator status. *)

Lemma on_stream_nil (w : json_writer) : on_stream [] w = w.
Proof. now destruct w. Qed.

Lemma emit_on_stream (bs o : list byte) (w : json_writer) :
  emit bs (on_stream o w) = on_stream o (emit bs w).
Proof.
  unfold emit, sout, on_stream; cbn. now rewrite app_assoc.
Qed.

Lemma write_control_escape_emits (c : byte) :
  exists bs, forall w, write_control_escape c w = emit bs w.
Proof.
  destruct c; eexists; intros w;
    unfold write_control_escape, seq, sout, emit, os_write, os_put; cbn;
    rewrite <- ?app_assoc; reflexivity.
Qed.

Lemma write_string_body_emits (m : mem) (ps start : ptr) :
  exists bs start', forall w, write_string_body m ps start w = (start', emit bs w).
Proof.
  unfold write_string_body.
  destruct (Byte.eqb (deref m ps) cQuote || Byte.eqb (deref m ps) cBackslash).
  - do 2 eexists. intros w. f_equal.
    unfold seq, sout, emit, os_write, os_put; cbn.
    rewrite <- !app_assoc. reflexivity.
  - destruct ((byte_val (deref m ps) <=? 31) || (byte_val (deref m ps) =? 127)).
    + destruct (write_control_escape_emits (deref m ps)) as [bs Hbs].
      exists (firstn (ps - start) (skipn start m) ++ bs), (S ps). intros w.
      unfold seq. rewrite Hbs.
      change (sout (os_write m start (ps - start)))
        with (emit (firstn (ps - start) (skipn start m))).
      now rewrite emit_emit.
    + exists [], start. intros w. now rewrite emit_nil.
Qed.

Lemma write_string_loop_emits (m : mem) (n : nat) :
  forall ps start : ptr,
  exists bs start', forall w, write_string_loop m n ps start w = (start', emit bs w).
Proof.
  induction n as [|n IH]; intros ps start.
  - exists [], start. intros w. cbn. now rewrite emit_nil.
  - destruct (write_string_body_emits m ps start) as (bs1 & start1 & H1).
    destruct (IH (S ps) start1) as (bs2 & start2 & H2).
    exists (bs1 ++ bs2), start2. intros w.
    cbn [write_string_loop]. rewrite H1, H2. now rewrite emit_emit.
Qed.

(** Whatever the range, valid or not, [write_string] only appends, and what
    it appends does not depend on the writer. *)
Lemma write_string_emits (m : mem) (first last : ptr) :
  exists bs, forall w, write_string m first last w = emit bs w.
Proof.
  destruct (write_string_loop_emits m (last - first) first first) as (bs & start & H).
  exists ([cQuote] ++ bs ++
          (if Nat.eqb start last then [] else firstn (last - start) (skipn start m)) ++
          [cQuote]).
  intros w. unfold write_string. rewrite H.
  change (sout (os_put cQuote)) with (emit [cQuote]).
  destruct (Nat.eqb start last).
  - rewrite !emit_emit. reflexivity.
  - change (sout (os_write m start (last - start)))
      with (emit (firstn (last - start) (skipn start m))).
    rewrite !emit_emit. reflexivity.
Qed.

Ltac shape_of_call :=
  unfold level_incr, level_decr, set_sep_status, emit, sout, on_stream, os_write,
    value_sep_bytes, indent_bytes;
  cbn [sout_ indent_ level_ sep_status_ skipn];
  rewrite ?Z.add_0_r, <- ?app_assoc; reflexivity.

Lemma exec_shape (c : call) (w : json_writer) :
  exists bs, forall o,
    exec c (on_stream o w) =
    mk_json_writer (o ++ sout_ w ++ bs) (indent_ w)
                   (level_ w + level_change c) (status_after c).
Proof.
  destruct c as [| | | |m f l|m f l|b| |n]; cbn [exec level_change status_after].
  - exists (value_sep_bytes w ++ [cArrStart]). intros o.
    rewrite array_start_spec. shape_of_call.
  - exists (indent_bytes (level_decr w) ++ [cArrEnd]). intros o.
    rewrite array_end_spec. shape_of_call.
  - exists (value_sep_bytes w ++ [cObjStart]). intros o.
    rewrite object_start_spec. shape_of_call.
  - exists (indent_bytes (level_decr w) ++ [cObjEnd]). intros o.
    rewrite object_end_spec. shape_of_call.
  - destruct (write_string_emits m f l) as [bs Hbs].
    exists (value_sep_bytes w ++ bs ++
            firstn (if indent_ w =? 0 then 1%nat else 2%nat) sNameSep).
    intros o. unfold name, seq. rewrite value_sep_spec, Hbs. shape_of_call.
  - destruct (write_string_emits m f l) as [bs Hbs].
    exists (value_sep_bytes w ++ bs).
    intros o. unfold value, seq. rewrite value_sep_spec, Hbs. shape_of_call.
  - exists (value_sep_bytes w ++
            if b then ["t"; "r"; "u"; "e"]%byte else ["f"; "a"; "l"; "s"; "e"]%byte).
    intros o. rewrite value_bool_spec. shape_of_call.
  - exists (value_sep_bytes w ++ ["n"; "u"; "l"; "l"]%byte). intros o.
    rewrite value_null_spec. shape_of_call.
  - exists (value_sep_bytes w ++ integral_text n). intros o.
    rewrite value_integral_spec. shape_of_call.
Qed.

Lemma run_shape (cs : list call) :
  forall w : json_writer,
  exists bs, forall o,
    run cs (on_stream o w) =
    mk_json_writer (o ++ sout_ w ++ bs) (indent_ w)
                   (level_ w + level_delta cs)
                   (final_status (sep_status_ w) cs).
Proof.
  induction cs as [|c cs IH]; intros w.
  - exists []. intros o. cbn [run level_delta final_status fold_left]. unfold skip, on_stream.
    now rewrite app_nil_r, Z.add_0_r.
  - destruct (exec_shape c w) as [bs1 H1].
    destruct (IH (exec c w)) as [bs2 H2].
    exists (bs1 ++ bs2). intros o. cbn [run]. unfold seq.
    pose proof (H1 []) as H1w. rewrite on_stream_nil in H1w. cbn [app] in H1w.
    rewrite H1.
    specialize (H2 o). rewrite H1w in H2. unfold on_stream in H2.
    cbn [sout_ indent_ level_ sep_status_] in H2.
    rewrite <- app_assoc in H2. rewrite H2.
    cbn [level_delta final_status fold_left].
    f_equal. lia.
Qed.

Lemma run_fields (cs : list call) (w : json_writer) :
  exists bs,
    run cs w =
    mk_json_writer (sout_ w ++ bs) (indent_ w) (level_ w + level_delta cs)
                   (final_status (sep_status_ w) cs) /\
    forall o, run cs (on_stream o w) = on_stream o (run cs w).
Proof.
  destruct (run_shape cs w) as [bs H]. exists bs.
  pose proof (H []) as Hw. rewrite on_stream_nil in Hw. cbn [app] in Hw.
  split; [exact Hw|]. intros o. rewrite H, Hw. reflexivity.
Qed.

(** The writer is forward-only: a sequence of calls, whatever it is, only
    appends to the stream; what it appends does not depend on what the
    stream already holds; and the indent width never changes. *)
Theorem run_only_appends (cs : list call) (w : json_writer) (o : ostream) :
  (exists bs, sout_ (run cs w) = sout_ w ++ bs) /\
  run cs (on_stream o w) = on_stream o (run cs w) /\
  indent_ (run cs w) = indent_ w.
Proof.
  destruct (run_fields cs w) as (bs & E & F). split; [|split].
  - exists bs. now rewrite E.
  - apply F.
  - now rewrite E.
Qed.

(** The level counts containers and nothing else: after any sequence of
    calls it is the level before, plus the number of start calls, minus the
    number of end calls.  Nothing stops it from going below zero. *)
Theorem run_level (cs : list call) (w : json_writer) :
  level_ (run cs w) = level_ w + level_delta cs.
Proof.
  destruct (run_fields cs w) as (bs & E & _). now rewrite E.
Qed.

(** The separator status after a sequence of calls is decided by the last
    call alone: [first] after a start call, [none] after a name, [next]
    after a value or an end call. *)
Theorem run_sep_status (cs : list call) (c : call) (w : json_writer) :
  sep_status_ (run (cs ++ [c]) w) = status_after c.
Proof.
  destruct (run_fields (cs ++ [c]) w) as (bs & E & _). rewrite E.
  cbn [sep_status_]. unfold final_status. now rewrite fold_left_app.
Qed.

Lemma balanced_from_level_delta (cs : list call) :
  forall open : list container,
    balanced_from open cs = true ->
    level_delta cs = - Z.of_nat (length open) /\
    forall k, - Z.of_nat (length open) <= level_delta (firstn k cs).
Proof.
  induction cs as [|c cs IH]; intros open Hb.
  - cbn [balanced_from] in Hb. destruct open; [|discriminate].
    split; [reflexivity|]. intros k. rewrite firstn_nil. reflexivity.
  - assert (Hstep : forall open',
               balanced_from open' cs = true ->
               Z.of_nat (length open') = Z.of_nat (length open) + level_change c ->
               level_delta (c :: cs) = - Z.of_nat (length open) /\
               forall k, - Z.of_nat (length open) <= level_delta (firstn k (c :: cs))).
    { intros open' Hb' Hlen. destruct (IH open' Hb') as [Hd Hk]. split.
      - cbn [level_delta]. lia.
      - intros [|k]; cbn [firstn level_delta]; [lia|]. specialize (Hk k). lia. }
    destruct c; cbn [balanced_from] in Hb.
    + apply (Hstep (Arr :: open) Hb). cbn [length level_change]. lia.
    + destruct open as [|[|] open]; try discriminate Hb.
      apply (Hstep open Hb). cbn [length level_change]. lia.
    + apply (Hstep (Obj :: open) Hb). cbn [length level_change]. lia.
    + destruct open as [|[|] open]; try discriminate Hb.
      apply (Hstep open Hb). cbn [length level_change]. lia.
    + apply (Hstep open Hb). cbn [level_change]. lia.
    + apply (Hstep open Hb). cbn [level_change]. lia.
    + apply (Hstep open Hb). cbn [level_change]. lia.
    + apply (Hstep open Hb). cbn [level_change]. lia.
    + apply (Hstep open Hb). cbn [level_change]. lia.
Qed.

(** A balanced sequence of calls brings the level back to where it was,
    and on the way the level never goes below that. *)
Theorem balanced_restores_level (cs : list call) (w : json_writer) :
  balanced cs = true ->
  level_ (run cs w) = level_ w /\
  forall k : nat, level_ w <= level_ (run (firstn k cs) w).
Proof.
  intros Hb. destruct (balanced_from_level_delta cs [] Hb) as [Hd Hk].
  cbn [length] in Hd, Hk. split.
  - destruct (run_fields cs w) as (bs & E & _). rewrite E. cbn [level_]. lia.
  - intros k. destruct (run_fields (firstn k cs) w) as (bs & E & _).
    rewrite E. cbn [level_]. specialize (Hk k). lia.
Qed.

Lemma balanced_restores_level_witness :
  balanced (calls sample_document) = true /\
  level_ (run (calls sample_document) (mk_json_writer [] 2 5 next)) =
    level_ (mk_json_writer [] 2 5 next) /\
  forall k : nat,
    level_ (mk_json_writer [] 2 5 next) <=
    level_ (run (firstn k (calls sample_document)) (mk_json_writer [] 2 5 next)).
Proof.
  split; [reflexivity|].
  apply (balanced_restores_level (calls sample_document) (mk_json_writer [] 2 5 next)).
  reflexivity.
Defined.

(** Without a matching start call an end call is not refused: the level
    goes below zero and the delimiter is written all the same. *)
Example unbalanced_end_goes_below_zero :
  level_ (run sample_unbalanced (json_writer_new [] 0)) = -1 /\
  sout_ (run sample_unbalanced (json_writer_new [] 0)) =
    ["["; "n"; "u"; "l"; "l"; "]"; "}"; ","; "t"; "r"; "u"; "e"]%byte.
Proof. split; reflexivity. Qed.

(** ** Closing a container *)

Lemma emitted_end (close : byte) (w : json_writer) :
  emitted (fun w => set_sep_status next
                      (emit (indent_bytes (level_decr w) ++ [close]) (level_decr w))) w =
  indent_bytes (level_decr w) ++ [close].
Proof.
  unfold emitted, set_sep_status, emit, sout, level_decr.
  cbn [sout_]. rewrite skipn_app, skipn_all, Nat.sub_diag. reflexivity.
Qed.

Lemma indent_bytes_no_comma (w : json_writer) : ~ In ","%byte (indent_bytes w).
Proof.
  unfold indent_bytes.
  destruct (negb (indent_ w =? 0) && negb (SepStatus_eqb (sep_status_ w) none));
    [|intros []].
  intros [H|H]; [discriminate H|]. apply repeat_spec in H. discriminate H.
Qed.

(** An end call never writes a comma, in whatever state the writer is: it
    writes the line break and indentation, if any, and its delimiter. *)
Theorem end_calls_write_no_comma (w : json_writer) :
  ~ In ","%byte (emitted array_end w) /\ ~ In ","%byte (emitted object_end w).
Proof.
  split.
  - unfold emitted. rewrite array_end_spec.
    fold (emitted (fun w => set_sep_status next
             (emit (indent_bytes (level_decr w) ++ [cArrEnd]) (level_decr w))) w).
    rewrite emitted_end. intros H. apply in_app_or in H as [H|[H|[]]].
    + now apply indent_bytes_no_comma in H.
    + discriminate H.
  - unfold emitted. rewrite object_end_spec.
    fold (emitted (fun w => set_sep_status next
             (emit (indent_bytes (level_decr w) ++ [cObjEnd]) (level_decr w))) w).
    rewrite emitted_end. intros H. apply in_app_or in H as [H|[H|[]]].
    + now apply indent_bytes_no_comma in H.
    + discriminate H.
Qed.

(** An empty array: [array_start] immediately followed by [array_end]
    writes, after the separator-and-indent prefix, the two brackets with
    nothing between them when the indent width is 0, and with a line break
    and the indentation of the level of the array between them otherwise;
    the level is back where it was and the status is [next]. *)
Theorem empty_array_output (w : json_writer) :
  sout_ (array_end (array_start w)) =
    sout_ (value_sep w) ++ [cArrStart] ++
    (if indent_ w =? 0 then []
     else x0a :: repeat " "%byte (Z.to_nat (level_ w * indent_ w))) ++
    [cArrEnd] /\
  sep_status_ (array_end (array_start w)) = next /\
  level_ (array_end (array_start w)) = level_ w.
Proof.
  rewrite array_end_spec, array_start_spec, value_sep_spec. unfold indent_bytes.
  unfold level_decr, level_incr, set_sep_status, emit, sout.
  cbn [sout_ indent_ level_ sep_status_ SepStatus_eqb negb andb].
  replace (level_ w + 1 - 1) with (level_ w) by lia.
  rewrite andb_true_r.
  destruct (indent_ w =? 0); cbn [negb app]; rewrite <- !app_assoc;
    repeat split; lia.
Qed.

(* ================================================================== *)
(** * Documents without pretty-printing *)

Section CompactElements.

Context {X : Type}.
Variable cs : X -> list call.
Variable body : X -> list byte.

Lemma run_elements_compact_next (xs : list X) :
  Forall (fun x => writes_compact (cs x) (body x)) xs ->
  forall w : json_writer,
    indent_ w = 0 -> sep_status_ w = next ->
    run (flat_map cs xs) w =
    mk_json_writer
      (sout_ w ++ concat (map (fun x => [","%byte] ++ body x) xs))
      0 (level_ w) next.
Proof.
  induction 1 as [|x xs Hx _ IH]; intros w Hi Hs.
  - cbn [flat_map map concat run]. unfold skip.
    apply json_writer_eq; cbn [sout_ indent_ level_ sep_status_]; auto.
    now rewrite app_nil_r.
  - cbn [flat_map map concat]. rewrite run_app, (Hx w Hi).
    rewrite IH by reflexivity. cbn [sout_ level_].
    rewrite (value_sep_bytes_indent_0 w Hi), Hs. cbn [SepStatus_eqb].
    f_equal. rewrite <- !app_assoc. reflexivity.
Qed.

Lemma run_elements_compact_first (xs : list X) :
  Forall (fun x => writes_compact (cs x) (body x)) xs ->
  forall w : json_writer,
    indent_ w = 0 -> sep_status_ w <> next ->
    run (flat_map cs xs) w =
    mk_json_writer
      (sout_ w ++ join [","%byte] (map body xs))
      0 (level_ w)
      (match xs with [] => sep_status_ w | _ :: _ => next end).
Proof.
  intros Hxs w Hi Hs. destruct Hxs as [|x xs Hx Hxs].
  - cbn [flat_map map join run]. unfold skip.
    apply json_writer_eq; cbn [sout_ indent_ level_ sep_status_]; auto.
    now rewrite app_nil_r.
  - cbn [flat_map map]. rewrite run_app, (Hx w Hi).
    rewrite (run_elements_compact_next xs Hxs) by reflexivity. cbn [sout_ level_].
    rewrite (value_sep_bytes_indent_0 w Hi), join_cons.
    replace (SepStatus_eqb (sep_status_ w) next) with false
      by (revert Hs; destruct (sep_status_ w); cbn; congruence).
    f_equal. rewrite map_map, <- !app_assoc. reflexivity.
Qed.

End CompactElements.

Lemma writes_compact_container
  (start_call end_call : call) (open close : byte)
  (elements : list call) (inside : list byte) :
  (forall w, exec start_call w =
             level_incr (set_sep_status first (emit (value_sep_bytes w ++ [open]) w))) ->
  (forall w, exec end_call w =
             set_sep_status next
               (emit (indent_bytes (level_decr w) ++ [close]) (level_decr w))) ->
  (forall w : json_writer,
      indent_ w = 0 -> sep_status_ w = first ->
      exists st,
        run elements w = mk_json_writer (sout_ w ++ inside) 0 (level_ w) st) ->
  writes_compact (start_call :: elements ++ [end_call]) (open :: inside ++ [close]).
Proof.
  intros Hstart Hend Hel w Hi.
  cbn [run]. unfold seq. rewrite run_app, Hstart.
  destruct (Hel (level_incr (set_sep_status first (emit (value_sep_bytes w ++ [open]) w)))
              Hi eq_refl) as (st & E).
  rewrite E. cbn [run]. unfold seq, skip. rewrite Hend.
  rewrite indent_bytes_indent_0 by reflexivity.
  unfold set_sep_status, emit, sout, level_decr, level_incr.
  cbn [sep_status_ sout_ indent_ level_].
  f_equal; [|lia]. rewrite <- !app_assoc. reflexivity.
Qed.

Lemma writes_compact_member (k : list byte) (cs : list call) (body : list byte) :
  writes_compact cs body ->
  writes_compact (Name k 0 (length k) :: cs) (quoted k ++ [":"%byte] ++ body).
Proof.
  intros Hcs w Hi. cbn [run exec]. unfold seq.
  rewrite name_spec by apply valid_range_whole. rewrite range_whole.
  rewrite Hcs by exact Hi.
  rewrite (value_sep_bytes_none (set_sep_status none _)) by reflexivity.
  cbn [sout_ set_sep_status emit sout indent_ level_]. rewrite Hi.
  f_equal. rewrite <- !app_assoc. reflexivity.
Qed.

Lemma writes_compact_calls (v : json) : writes_compact (calls v) (render_compact v).
Proof.
  induction v as [s|n|b| |vs IH|ms IH] using json_induction.
  - intros w Hi. cbn [calls run exec render_compact]. unfold seq, skip.
    rewrite value_spec by apply valid_range_whole. rewrite range_whole.
    rewrite <- Hi. reflexivity.
  - intros w Hi. cbn [calls run exec render_compact]. unfold seq, skip.
    rewrite value_integral_spec, <- Hi. reflexivity.
  - intros w Hi. cbn [calls run exec render_compact]. unfold seq, skip.
    rewrite value_bool_spec, <- Hi. reflexivity.
  - intros w Hi. cbn [calls run exec render_compact]. unfold seq, skip.
    rewrite value_null_spec, <- Hi. reflexivity.
  - cbn [calls render_compact].
    apply (writes_compact_container ArrayStart ArrayEnd "["%byte "]"%byte).
    + exact array_start_spec.
    + exact array_end_spec.
    + intros w Hi Hs. eexists.
      apply (run_elements_compact_first calls render_compact); auto.
      rewrite Hs. discriminate.
  - cbn [calls render_compact].
    apply (writes_compact_container ObjectStart ObjectEnd "{"%byte "}"%byte).
    + exact object_start_spec.
    + exact object_end_spec.
    + intros w Hi Hs. eexists.
      apply (run_elements_compact_first
               (fun kv => Name (fst kv) 0 (length (fst kv)) :: calls (snd kv))
               (fun kv => quoted (fst kv) ++ [":"%byte] ++ render_compact (snd kv))).
      * revert IH. apply Forall_impl. intros kv Hv. apply writes_compact_member, Hv.
      * exact Hi.
      * rewrite Hs. discriminate.
Qed.

(** With indent width 0 the calls that write a document, on a new writer,
    produce its compact layout: the tokens, one comma between two siblings,
    one colon after a name, and no other byte. *)
Theorem compact_layout (v : json) (o : ostream) :
  sout_ (run (calls v) (json_writer_new o 0)) = o ++ render_compact v /\
  level_ (run (calls v) (json_writer_new o 0)) = 0 /\
  sep_status_ (run (calls v) (json_writer_new o 0)) = next.
Proof.
  rewrite (writes_compact_calls v (json_writer_new o 0) eq_refl).
  repeat split.
Qed.

(** The top level is no exception to the separator logic: documents
    written one after the other on a new writer are separated by a comma,
    and when pretty-printing by a comma and a line break, as the elements
    of a container are. *)
Theorem top_level_documents_are_separated (N : Z) (vs : list json) :
  0 <= N ->
  sout_ (run (flat_map calls vs) (json_writer_new [] N)) =
  if N =? 0 then join [","%byte] (map render_compact vs)
  else join (","%byte :: newline_indent N 0) (map (render N 0) vs).
Proof.
  intros HN. destruct (Z.eqb_spec N 0) as [->|Hne].
  - rewrite (run_elements_compact_first calls render_compact vs);
      [reflexivity| |reflexivity|discriminate].
    apply Forall_forall. intros v _. apply writes_compact_calls.
  - assert (Hpos : 0 < N) by lia.
    destruct vs as [|v vs]; [reflexivity|].
    cbn [flat_map map]. rewrite run_app, join_cons, map_map.
    rewrite (writes_calls N Hpos v 0 (json_writer_new [] N) eq_refl eq_refl).
    rewrite (run_elements_next N Hpos calls (fun v => render N 0 v) 0 vs);
      [|apply Forall_forall; intros v' _; apply writes_calls; exact Hpos
       |reflexivity|reflexivity|reflexivity].
    cbn [sout_ json_writer_new]. rewrite value_sep_bytes_none by reflexivity.
    reflexivity.
Qed.

Lemma top_level_documents_are_separated_witness :
  0 <= 2 /\
  sout_ (run (flat_map calls sample_documents) (json_writer_new [] 2)) =
  join (","%byte :: newline_indent 2 0) (map (render 2 0) sample_documents).
Proof.
  split; [lia|].
  apply (top_level_documents_are_separated 2 sample_documents). lia.
Defined.
